(** * eMedis pilot: the finding extractor and the differential scorer

    A shallow embedding of the helpers of [app.py] that carry the
    algorithmic content of the application,

      - [normalize]          ([str(s).strip().lower()]),
      - [parse_findings]     (phrase lookup in the free text),
      - [softmax] and [score_differential] (evidence aggregation, softmax,
        rounding, ranking and truncation to [MAX_TOP]),

    together with the properties the specification states about them.

    Modelling conventions.

    - Text is a [string]; a character outside ASCII is its UTF-8 bytes,
      on which [in] finds the same occurrences as on the characters.
      [Text.lower] and [Text.strip] are [str.lower] and [str.strip] on
      ASCII text and leave other characters alone, which Python does not.
      What is stated of them is stated of ASCII text; the extractor is
      also given with the two methods as parameters
      ([parse_findings_with]), for what holds on every text.
    - A pandas row is a record whose fields are optional: [None] is a label
      that is absent from the row (so that [row["phrase"]] raises
      [KeyError]), and a present cell is either a string or the missing
      value NaN, which [str] prints as ["nan"].
    - Python exceptions are values of [exn]; a function that may raise
      returns a [result].
    - float64 numbers are idealised as real numbers: [np.exp] is the real
      exponential and the arithmetic is exact, without rounding, underflow
      or overflow.  What depends on the values of the numbers is stated
      for this exact arithmetic; what is stated of the shape of the result
      (lengths, members, order) does not depend on them.  [round(x, 1)] on
      a numpy float is [rint(10 x) / 10] with halves going to the even
      neighbour.
    - A data frame read by [pd.read_csv] has NaN where a cell is empty or
      [n/a], and a row of a data frame has the labels of its table: the
      default of [row.get("weight", 1)] is for a table without weight
      column.  The module [Float64] embeds the scorer on numbers that
      include NaN and the infinities, for weights that are not numbers.
    - [sorted(..., reverse=True)] is a stable sort; it is modelled by the
      insertion sort that keeps equal keys in their original order.
    - The [scores] dict is an association list in insertion order, as
      Python dicts are. *)

From Stdlib Require Import List String Ascii Bool Arith NArith ZArith Lia.
From Stdlib Require Import Reals Lra Sorting.Sorted Permutation.
Import ListNotations.

Local Open Scope string_scope.
Local Open Scope list_scope.

(** ** Exceptions and results *)

Inductive exn : Type :=
| KeyError (label : string)
| ValueError (msg : string).

Inductive result (A : Type) : Type :=
| Ok (a : A)
| Raise (e : exn).

Arguments Ok {A} a.
Arguments Raise {A} e.

Definition bind {A B : Type} (m : result A) (k : A -> result B) : result B :=
  match m with
  | Ok a => k a
  | Raise e => Raise e
  end.

Notation "x <- m ;; k" := (bind m (fun x => k))
  (at level 61, m at next level, right associativity).

(** ** Cells and rows of the reference tables *)

Inductive cell : Type :=
| Str (s : string)
| NaN.

(** [row[label]]: the value under a label, or [KeyError]. *)
Definition getitem {A : Type} (label : string) (field : option A) : result A :=
  match field with
  | Some c => Ok c
  | None => Raise (KeyError label)
  end.

(** Rows of [symptoms_dict.csv]. *)
Record symptom_row : Type := mk_symptom {
  phrase : option cell;
  canonical_text : option cell
}.

(** ** Strings: [str], [strip], [lower], [in] *)

Module Text.

Definition code (c : ascii) : N := N_of_ascii c.

(** Python's [str.isspace] on ASCII: TAB, LF, VT, FF, CR, the four
    separators FS, GS, RS, US, and the blank. *)
Definition is_space (c : ascii) : bool :=
  let n := code c in
  ((9 <=? n) && (n <=? 13) || (28 <=? n) && (n <=? 32))%N.

Definition is_upper (c : ascii) : bool :=
  let n := code c in ((65 <=? n) && (n <=? 90))%N.

Definition lower_char (c : ascii) : ascii :=
  if is_upper c then ascii_of_N (code c + 32) else c.

Fixpoint lower (s : string) : string :=
  match s with
  | EmptyString => EmptyString
  | String c s' => String (lower_char c) (lower s')
  end.

Fixpoint lstrip (s : string) : string :=
  match s with
  | EmptyString => EmptyString
  | String c s' => if is_space c then lstrip s' else s
  end.

Definition is_empty (s : string) : bool :=
  match s with
  | EmptyString => true
  | String _ _ => false
  end.

Fixpoint rstrip (s : string) : string :=
  match s with
  | EmptyString => EmptyString
  | String c s' =>
      let r := rstrip s' in
      if is_space c && is_empty r then EmptyString else String c r
  end.

Definition strip (s : string) : string := rstrip (lstrip s).

Fixpoint starts_with (p s : string) : bool :=
  match p, s with
  | EmptyString, _ => true
  | String _ _, EmptyString => false
  | String a p', String b s' => Ascii.eqb a b && starts_with p' s'
  end.

(** [p in s] on Python strings: [p] occurs at some offset of [s]. *)
Fixpoint contains (p s : string) : bool :=
  starts_with p s ||
  match s with
  | EmptyString => false
  | String _ s' => contains p s'
  end.

(** All characters of a string are white space. *)
Fixpoint blank (s : string) : bool :=
  match s with
  | EmptyString => true
  | String c s' => is_space c && blank s'
  end.

(** The first character of a string is not white space (or there is
    none). *)
Definition tight_left (s : string) : bool :=
  match s with
  | EmptyString => true
  | String c _ => negb (is_space c)
  end.

(** The same for the last character. *)
Fixpoint tight_right (s : string) : bool :=
  match s with
  | EmptyString => true
  | String c EmptyString => negb (is_space c)
  | String _ s' => tight_right s'
  end.

End Text.

(** [str(s)] on a cell. *)
Definition str (c : cell) : string :=
  match c with
  | Str s => s
  | NaN => "nan"
  end.

(** [def normalize(s): return str(s).strip().lower()] *)
Definition normalize (s : cell) : string :=
  Text.lower (Text.strip (str s)).

(** ** The finding extractor *)

(** One iteration of the loop of [parse_findings]: the row's phrase is
    read and normalised, and when it occurs in the normalised text the
    row's canonical text is appended to [found]. *)
Definition parse_row (text : string) (row : symptom_row) (found : list cell)
  : result (list cell) :=
  p <- getitem "phrase" (phrase row) ;;
  let phrase := normalize p in
  if Text.contains phrase (normalize (Str text)) then
    c <- getitem "canonical_text" (canonical_text row) ;;
    Ok (found ++ [c])
  else Ok found.

Fixpoint parse_loop (text : string) (rows : list symptom_row)
  (found : list cell) : result (list cell) :=
  match rows with
  | [] => Ok found
  | row :: rest =>
      found' <- parse_row text row found ;;
      parse_loop text rest found'
  end.

Definition parse_findings (text : string) (symptoms_df : list symptom_row)
  : result (list cell) :=
  parse_loop text symptoms_df [].

(** The extractor with the two string methods it calls, [str.strip] and
    [str.lower], as parameters.  [Text.strip] and [Text.lower] are these
    methods on ASCII text; on other text (a character outside ASCII being
    its UTF-8 bytes) Python folds the case of more letters, in a way that
    can depend on the neighbouring letters, and strips more kinds of white
    space.  What is proved of the functions below for all [py_strip] and
    [py_lower] holds of the code for every text. *)
Section Builtins.

Variable py_strip : string -> string.
Variable py_lower : string -> string.





End Builtins.


(** ** The differential scorer *)

Definition MAX_TOP : nat := 5.

(** A weight cell as [float] sees it: a value that [float] converts (an
    int, a float, a numeric string), given by the number it converts to, or
    a value that [float] rejects with [ValueError], such as the string
    [n/a].  (When the table comes from [pd.read_csv] with its defaults, the
    text [n/a] in the file is already NaN in the frame; a NaN weight is
    outside this model.) *)
Inductive weight_cell : Type :=
| Number (x : R)
| NotNumber (s : string).

(** Rows of [disease_matrix.csv]; disease names are strings. *)
Record disease_row : Type := mk_disease {
  disease : option string;
  finding_text : option cell;
  weight : option weight_cell;
  citation_id : option cell
}.

(** Rows of the laboratory table edited in the form. *)
Record lab_row : Type := mk_lab {
  test_name : string;
  value : string;
  unit : string;
  flag : string
}.

(** [float(v)] *)
Definition float (v : weight_cell) : result R :=
  match v with
  | Number x => Ok x
  | NotNumber s => Raise (ValueError s)
  end.

(** [row.get(label, default)] *)
Definition get {A : Type} (field : option A) (default : A) : A :=
  match field with
  | Some v => v
  | None => default
  end.

(** [finding in found], for a string [finding] and a list of cells: NaN is
    equal to no string. *)
Definition cell_is (finding : string) (c : cell) : bool :=
  match c with
  | Str s => String.eqb finding s
  | NaN => false
  end.

Definition member (finding : string) (found : list cell) : bool :=
  existsb (cell_is finding) found.

(** The [scores] dict, in insertion order. *)
Definition dict : Type := list (string * R).

(** [scores.get(dx, default)] *)
Fixpoint dict_get (dx : string) (scores : dict) (default : R) : R :=
  match scores with
  | [] => default
  | (k, v) :: rest => if String.eqb dx k then v else dict_get dx rest default
  end.

(** [scores[dx] = v]: an existing key keeps its place, a new key goes to
    the end. *)
Fixpoint dict_set (dx : string) (v : R) (scores : dict) : dict :=
  match scores with
  | [] => [(dx, v)]
  | (k, v') :: rest =>
      if String.eqb dx k then (k, v) :: rest else (k, v') :: dict_set dx v rest
  end.

Definition keys (scores : dict) : list string := map fst scores.
Definition values (scores : dict) : list R := map snd scores.

(** One iteration of the loop of [score_differential]. *)
Definition score_row (found : list cell) (row : disease_row) (scores : dict)
  : result dict :=
  dx <- getitem "disease" (disease row) ;;
  f <- getitem "finding_text" (finding_text row) ;;
  let finding := normalize f in
  w <- float (get (weight row) (Number 1)) ;;
  if member finding found then
    Ok (dict_set dx (dict_get dx scores 0 + w)%R scores)
  else Ok scores.

Fixpoint score_loop (found : list cell) (rows : list disease_row)
  (scores : dict) : result dict :=
  match rows with
  | [] => Ok scores
  | row :: rest =>
      scores' <- score_row found row scores ;;
      score_loop found rest scores'
  end.

(** [np.max(x)]; numpy refuses an empty array. *)
Definition np_max (x : list R) : result R :=
  match x with
  | [] => Raise (ValueError "zero-size array to reduction operation maximum")
  | a :: rest => Ok (fold_left Rmax rest a)
  end.

(** [e.sum()] *)
Definition np_sum (e : list R) : R := fold_left Rplus e 0%R.

(** [def softmax(x): e = np.exp(x - np.max(x)); return e / e.sum()] *)
Definition softmax (x : list R) : result (list R) :=
  m <- np_max x ;;
  let e := map (fun v => exp (v - m)) x in
  let s := np_sum e in
  Ok (map (fun v => (v / s)%R) e).

(** Rounding to the nearest integer, halves to the even neighbour. *)
Definition rint (x : R) : Z :=
  let f := Int_part x in
  let d := (x - IZR f)%R in
  if Rlt_dec d (1 / 2) then f
  else if Rlt_dec (1 / 2) d then (f + 1)%Z
  else if Z.even f then f else (f + 1)%Z.

(** [round(x, ndigits)] on a numpy float: scale, round to an integer,
    scale back. *)
Definition round (x : R) (ndigits : nat) : R :=
  (IZR (rint (x * 10 ^ ndigits)) / 10 ^ ndigits)%R.

(** The dicts [{"name": n, "probability": p}] of the result. *)
Record candidate : Type := mk_candidate {
  name : string;
  probability : R
}.

(** [sorted(l, key=key, reverse=True)]: a stable sort into non-increasing
    key order; an element goes in front of the first element whose key is
    not greater than its own. *)
Section Sorted.

Context {A : Type} (key : A -> R).

Fixpoint insert_desc (x : A) (l : list A) : list A :=
  match l with
  | [] => [x]
  | y :: rest =>
      if Rlt_dec (key x) (key y) then y :: insert_desc x rest
      else x :: y :: rest
  end.

Fixpoint sorted_desc (l : list A) : list A :=
  match l with
  | [] => []
  | x :: rest => insert_desc x (sorted_desc rest)
  end.

End Sorted.

(** The order of a stable sort: a greater key first, and the order [before]
    among equal keys. *)
Definition key_then_before {A : Type} (key : A -> R)
  (before : A -> A -> Prop) (a b : A) : Prop :=
  (key b < key a)%R \/ (key a = key b /\ before a b).

(** The list that [score_differential] slices: every disease of [scores]
    with its rounded percentage, ranked. *)
Definition ranked (scores : dict) : result (list candidate) :=
  let names := keys scores in
  let vals := values scores in
  probs <- softmax vals ;;
  Ok (sorted_desc probability
        (map (fun np => mk_candidate (fst np) (round (snd np * 100) 1))
             (combine names probs))).

Definition score_differential (found : list cell) (labs : list lab_row)
  (disease_df : list disease_row) : result (list candidate) :=
  scores <- score_loop found disease_df [] ;;
  match scores with
  | [] => Ok []
  | _ :: _ =>
      r <- ranked scores ;;
      Ok (firstn MAX_TOP r)
  end.

(** The candidate list before the slice [[:MAX_TOP]]. *)
Definition score_untruncated (found : list cell) (labs : list lab_row)
  (disease_df : list disease_row) : result (list candidate) :=
  scores <- score_loop found disease_df [] ;;
  match scores with
  | [] => Ok []
  | _ :: _ => ranked scores
  end.

(** ** Specification-level notions *)

(** [p] occurs in [s] as a contiguous substring. *)
Definition occurs_in (p s : string) : Prop :=
  exists pre post : string, s = (pre ++ p ++ post)%string.

(** The row's phrase occurs in the text, both normalised. *)
Definition matches (text : string) (row : symptom_row) : bool :=
  match phrase row with
  | Some p => Text.contains (normalize p) (normalize (Str text))
  | None => false
  end.

(** Both labels of the dictionary are present in the row. *)
Definition has_labels (row : symptom_row) : bool :=
  match phrase row, canonical_text row with
  | Some _, Some _ => true
  | _, _ => false
  end.

(** The cell under [canonical_text], NaN standing in for an absent label. *)
Definition canonical (row : symptom_row) : cell :=
  get (canonical_text row) NaN.

Definition cell_eq_dec (a b : cell) : {a = b} + {a <> b}.
Proof. decide equality. apply string_dec. Defined.

Definition cell_eqb (a b : cell) : bool :=
  if cell_eq_dec a b then true else false.

(** ** Specification-level notions for the scorer *)

(** A row the loop of [score_differential] gets through: the labels
    [disease] and [finding_text] are present and the weight, when present,
    is a number. *)
Definition usable (row : disease_row) : bool :=
  match disease row, finding_text row, weight row with
  | Some _, Some _, Some (NotNumber _) => false
  | Some _, Some _, _ => true
  | _, _, _ => false
  end.

(** The row's normalised [finding_text] is one of the findings. *)
Definition contributes (found : list cell) (row : disease_row) : bool :=
  match finding_text row with
  | Some f => member (normalize f) found
  | None => false
  end.

Definition disease_name (row : disease_row) : string :=
  get (disease row) "".

(** The weight the row adds: the number in the cell, 1 without a cell. *)
Definition weight_of (row : disease_row) : R :=
  match weight row with
  | Some (Number x) => x
  | _ => 1%R
  end.

(** The diseases of the contributing rows, one per row, in table order. *)
Definition contributors (found : list cell) (df : list disease_row)
  : list string :=
  map disease_name (filter (contributes found) df).

(** Position of the first occurrence of [d] in [l] ([length l] if none). *)
Fixpoint index_of (d : string) (l : list string) : nat :=
  match l with
  | [] => 0
  | x :: rest => if String.eqb d x then 0 else S (index_of d rest)
  end.

(** Number of distinct diseases that received a contribution. *)
Definition contributing_diseases (found : list cell) (df : list disease_row)
  : nat :=
  List.length (nodup string_dec (contributors found df)).

(** Number of diseases of a [scores] dict whose raw score is not zero. *)
Definition nonzero (x : R) : bool :=
  if Req_dec_T x 0 then false else true.

Definition nonzero_scores (scores : dict) : nat :=
  List.length (filter (fun kv => nonzero (snd kv)) scores).

(** [a] is ranked in front of [b]: a greater percentage, or the same
    percentage and an earlier first contribution. *)
Definition ranks_before (order : list string) (a b : candidate) : Prop :=
  (probability b < probability a)%R
  \/ (probability a = probability b
      /\ index_of (name a) order < index_of (name b) order).

(** Sum of the percentages of a candidate list. *)
Definition total (l : list candidate) : R :=
  fold_right Rplus 0%R (map probability l).

(** ** Auxiliary functions of the proofs *)

(** The loop without its exceptions: what it computes on usable rows. *)
Fixpoint accumulate (found : list cell) (rows : list disease_row)
  (scores : dict) : dict :=
  match rows with
  | [] => scores
  | row :: rest =>
      accumulate found rest
        (if contributes found row then
           dict_set (disease_name row)
             (dict_get (disease_name row) scores 0 + weight_of row)%R scores
         else scores)
  end.

(** A key is appended unless it is there already. *)
Definition add_key (ks : list string) (dx : string) : list string :=
  if existsb (String.eqb dx) ks then ks else ks ++ [dx].

(** Sum of a list of numbers, from the right. *)
Definition rsum (l : list R) : R := fold_right Rplus 0%R l.

(** The list comprehension of [score_differential]. *)
Definition candidates_of (names : list string) (probs : list R)
  : list candidate :=
  map (fun np => mk_candidate (fst np) (round (snd np * 100) 1))
      (combine names probs).

(** The row with the default of [row.get("weight", 1)] written into it. *)
Definition with_default_weight (row : disease_row) : disease_row :=
  mk_disease (disease row) (finding_text row)
             (Some (get (weight row) (Number 1))) (citation_id row).

(** ** Example tables *)

Definition entry (ph canon : string) : symptom_row :=
  mk_symptom (Some (Str ph)) (Some (Str canon)).

Definition evidence (dx finding : string) (w : R) : disease_row :=
  mk_disease (Some dx) (Some (Str finding)) (Some (Number w)) None.

Definition spec_text : string := "fever and cough, no other symptoms".

Definition spec_dictionary : list symptom_row :=
  [entry "fever" "Fever"; entry "cough" "Cough"].

Definition spec_evidence : list disease_row :=
  [evidence "Flu" "Fever" 2; evidence "Flu" "Cough" 1;
   evidence "Pneumonia" "Cough" 3].

(** Six diseases with one row each for the same finding. *)
Definition six_diseases : list string :=
  ["Flu"; "Cold"; "Covid"; "Pneumonia"; "Bronchitis"; "Sinusitis"].

Definition six_way : list disease_row :=
  map (fun dx => evidence dx "fever" 1) six_diseases.

(** ** Further notions *)

(** No ASCII upper-case letter occurs in the string. *)
Fixpoint no_upper (s : string) : bool :=
  match s with
  | EmptyString => true
  | String c s' => negb (Text.is_upper c) && no_upper s'
  end.

(** The row has a phrase but no [canonical_text] label. *)
Definition lacks_canonical (row : symptom_row) : bool :=
  match phrase row, canonical_text row with
  | Some _, None => true
  | _, _ => false
  end.

(** Sum of the weights of the rows that contribute to disease [d]. *)
Definition raw_score (found : list cell) (df : list disease_row) (d : string)
  : R :=
  rsum (map weight_of
          (filter (fun row => contributes found row
                              && String.eqb (disease_name row) d) df)).

(** The percentage of a raw score [v], for the maximum [m] of the raw
    scores and the sum [s] of the exponentials. *)
Definition percentage (m s v : R) : R :=
  round (exp (v - m) / s * 100) 1.

(** ** The page of the application *)

Definition APP_PASSWORD : string := "ChangeMeNow!".

(** What one run of the script does at the password gate. *)
Inductive outcome : Type :=
| Stopped (error : option string)
| Rerun
| Passed.

(** One run of the script up to [st.stop()].  [auth] is the entry of
    [st.session_state] ([None] while the key is not there), [pw] the
    content of the password field and [continue] whether the button was
    pressed.  The run gives the new entry, and stops, starts the script
    again, or goes on to the page. *)
Definition gate (auth : option bool) (pw : string) (continue : bool)
  : option bool * outcome :=
  let auth := get auth false in
  if negb auth then
    if continue then
      if String.eqb pw APP_PASSWORD then (Some true, Rerun)
      else (Some auth, Stopped (Some "Incorrect password"))
    else (Some auth, Stopped None)
  else (Some auth, Passed).

(** The runs of one browser session, one per pair of inputs. *)
Fixpoint session (auth : option bool) (inputs : list (string * bool))
  : list outcome :=
  match inputs with
  | [] => []
  | (pw, continue) :: rest =>
      let (auth', o) := gate auth pw continue in
      o :: session auth' rest
  end.

(** Rows of [tests_suggestions.csv] and of [citations.csv]; the tables
    have their columns. *)
Module Tests.

Record row : Type := mk {
  disease : cell;
  test_name : cell;
  why : cell
}.

End Tests.

Module Citations.

Record row : Type := mk {
  citation_id : cell;
  title : cell;
  url : cell;
  source : cell
}.

End Citations.

(** [c in values], as [Series.isin] tests each cell: a missing value is
    in a collection that has a missing value. *)
Definition isin (c : cell) (values : list cell) : bool :=
  existsb (cell_eqb c) values.

(** [Series.unique()]: the values in order of first appearance. *)
Fixpoint unique (l : list cell) : list cell :=
  match l with
  | [] => []
  | c :: rest => c :: filter (fun x => negb (cell_eqb x c)) (unique rest)
  end.

(** [df[label]] on the evidence table: the cells of a column, or
    [KeyError] where the label is absent. *)
Fixpoint column_citation_id (df : list disease_row) : result (list cell) :=
  match df with
  | [] => Ok []
  | row :: rest =>
      c <- getitem "citation_id" (citation_id row) ;;
      cs <- column_citation_id rest ;;
      Ok (c :: cs)
  end.

(** What the page shows after [Analyze Case]: the error message, or the
    differential with the suggested tests and the evidence sources. *)
Inductive page : Type :=
| NoMatches
| Report (results : list candidate) (tests : list Tests.row)
         (refs : list Citations.row).

(** The handler of the button [Analyze Case]. *)
Definition analyze_case (findings_text : string) (labs_input : list lab_row)
  (symptoms_df : list symptom_row) (disease_df : list disease_row)
  (tests_df : list Tests.row) (citations_df : list Citations.row)
  : result page :=
  found <- parse_findings findings_text symptoms_df ;;
  results <- score_differential found labs_input disease_df ;;
  match results with
  | [] => Ok NoMatches
  | _ :: _ =>
      let dx_names := map name results in
      let tests :=
        filter (fun t => isin (Tests.disease t) (map Str dx_names)) tests_df in
      ids <- column_citation_id disease_df ;;
      let refs :=
        filter (fun c => isin (Citations.citation_id c) (unique ids))
               citations_df in
      Ok (Report results tests refs)
  end.

(** The label [citation_id] is present in the row. *)
Definition has_citation (row : disease_row) : bool :=
  match citation_id row with
  | Some _ => true
  | None => false
  end.

(** An evidence row with a citation and no weight. *)
Definition cited (dx finding cit : string) : disease_row :=
  mk_disease (Some dx) (Some (Str finding)) None (Some (Str cit)).

(** The cell is a string that [normalize] leaves as it is: no upper-case
    letter, no white space at either end. *)
Definition in_normal_form (c : cell) : bool :=
  match c with
  | Str s => String.eqb s (normalize (Str s))
  | NaN => false
  end.


(** ** The scorer on numbers with the special values of float64

    Above, a weight is a real number.  A float64 can also be an infinity
    or NaN, and NaN is what [pd.read_csv] makes of an empty cell and of the
    text [n/a].  The module embeds [softmax] and [score_differential] once
    more, on numbers that have these values.  The arithmetic on the real
    numbers stays exact (no rounding, no overflow) and the two zeros are
    one; [lift_row] and [lift_candidate] relate the two embeddings, which
    agree on real weights. *)

Module Float64.

Inductive number : Type :=
| Fin (x : R)
| PosInf
| NegInf
| Nan.

Definition sign (x : R) : comparison :=
  if Rlt_dec x 0 then Lt else if Rlt_dec 0 x then Gt else Eq.

Definition opp (a : number) : number :=
  match a with
  | Fin x => Fin (- x)
  | PosInf => NegInf
  | NegInf => PosInf
  | Nan => Nan
  end.

Definition add (a b : number) : number :=
  match a, b with
  | Nan, _ | _, Nan => Nan
  | Fin x, Fin y => Fin (x + y)
  | PosInf, NegInf | NegInf, PosInf => Nan
  | PosInf, _ | _, PosInf => PosInf
  | NegInf, _ | _, NegInf => NegInf
  end.

Definition sub (a b : number) : number := add a (opp b).

Definition mul (a b : number) : number :=
  match a, b with
  | Nan, _ | _, Nan => Nan
  | Fin x, Fin y => Fin (x * y)
  | Fin x, PosInf | PosInf, Fin x =>
      match sign x with Gt => PosInf | Lt => NegInf | Eq => Nan end
  | Fin x, NegInf | NegInf, Fin x =>
      match sign x with Gt => NegInf | Lt => PosInf | Eq => Nan end
  | PosInf, PosInf | NegInf, NegInf => PosInf
  | PosInf, NegInf | NegInf, PosInf => NegInf
  end.

Definition div (a b : number) : number :=
  match a, b with
  | Nan, _ | _, Nan => Nan
  | Fin x, Fin y =>
      match sign y with
      | Eq => match sign x with Gt => PosInf | Lt => NegInf | Eq => Nan end
      | _ => Fin (x / y)
      end
  | Fin _, _ => Fin 0
  | PosInf, Fin y => match sign y with Lt => NegInf | _ => PosInf end
  | NegInf, Fin y => match sign y with Lt => PosInf | _ => NegInf end
  | _, _ => Nan
  end.

(** [np.exp] *)
Definition np_exp (a : number) : number :=
  match a with
  | Fin x => Fin (exp x)
  | PosInf => PosInf
  | NegInf => Fin 0
  | Nan => Nan
  end.

(** [a < b]; every comparison with NaN is false. *)
Definition ltb (a b : number) : bool :=
  match a, b with
  | Nan, _ | _, Nan => false
  | Fin x, Fin y => if Rlt_dec x y then true else false
  | _, NegInf => false
  | NegInf, _ => true
  | PosInf, _ => false
  | _, PosInf => true
  end.

(** [np.maximum], which [np.max] folds over the array: NaN wins. *)
Definition maximum (a b : number) : number :=
  match a, b with
  | Nan, _ | _, Nan => Nan
  | _, _ => if ltb a b then b else a
  end.

(** [round(x, ndigits)]; an infinity and NaN are returned as they are. *)
Definition round (a : number) (ndigits : nat) : number :=
  match a with
  | Fin x => Fin (round x ndigits)
  | _ => a
  end.

(** A weight cell as [float] sees it: a value that [float] converts, given
    by the number it converts to (NaN for a missing value), or a text that
    [float] rejects with [ValueError]. *)
Inductive weight_cell : Type :=
| Number (x : number)
| NotNumber (s : string).

(** Rows of the evidence table.  In a data frame either every row has
    the label [weight] or none has; a cell that is empty in the file is
    there, with the value NaN. *)
Record disease_row : Type := mk_disease {
  disease : option string;
  finding_text : option cell;
  weight : option weight_cell;
  citation_id : option cell
}.

(** [float(v)] *)
Definition float (v : weight_cell) : result number :=
  match v with
  | Number x => Ok x
  | NotNumber s => Raise (ValueError s)
  end.

Definition dict : Type := list (string * number).

Fixpoint dict_get (dx : string) (scores : dict) (default : number) : number :=
  match scores with
  | [] => default
  | (k, v) :: rest => if String.eqb dx k then v else dict_get dx rest default
  end.

Fixpoint dict_set (dx : string) (v : number) (scores : dict) : dict :=
  match scores with
  | [] => [(dx, v)]
  | (k, v') :: rest =>
      if String.eqb dx k then (k, v) :: rest else (k, v') :: dict_set dx v rest
  end.

Definition keys (scores : dict) : list string := map fst scores.

Definition values (scores : dict) : list number := map snd scores.

Definition score_row (found : list cell) (row : disease_row) (scores : dict)
  : result dict :=
  dx <- getitem "disease" (disease row) ;;
  f <- getitem "finding_text" (finding_text row) ;;
  let finding := normalize f in
  w <- float (get (weight row) (Number (Fin 1))) ;;
  if member finding found then
    Ok (dict_set dx (add (dict_get dx scores (Fin 0)) w) scores)
  else Ok scores.

Fixpoint score_loop (found : list cell) (rows : list disease_row)
  (scores : dict) : result dict :=
  match rows with
  | [] => Ok scores
  | row :: rest =>
      scores' <- score_row found row scores ;;
      score_loop found rest scores'
  end.

Definition np_max (x : list number) : result number :=
  match x with
  | [] => Raise (ValueError "zero-size array to reduction operation maximum")
  | a :: rest => Ok (fold_left maximum rest a)
  end.

Definition np_sum (e : list number) : number := fold_left add e (Fin 0).

Definition softmax (x : list number) : result (list number) :=
  m <- np_max x ;;
  let e := map (fun v => np_exp (sub v m)) x in
  let s := np_sum e in
  Ok (map (fun v => div v s) e).

Record candidate : Type := mk_candidate {
  name : string;
  probability : number
}.

Fixpoint insert_desc {A : Type} (key : A -> number) (x : A) (l : list A)
  : list A :=
  match l with
  | [] => [x]
  | y :: rest =>
      if ltb (key x) (key y) then y :: insert_desc key x rest
      else x :: y :: rest
  end.

Fixpoint sorted_desc {A : Type} (key : A -> number) (l : list A) : list A :=
  match l with
  | [] => []
  | x :: rest => insert_desc key x (sorted_desc key rest)
  end.

Definition ranked (scores : dict) : result (list candidate) :=
  let names := keys scores in
  let vals := values scores in
  probs <- softmax vals ;;
  Ok (sorted_desc probability
        (map (fun np => mk_candidate (fst np) (round (mul (snd np) (Fin 100)) 1))
             (combine names probs))).

Definition score_differential (found : list cell) (labs : list lab_row)
  (disease_df : list disease_row) : result (list candidate) :=
  scores <- score_loop found disease_df [] ;;
  match scores with
  | [] => Ok []
  | _ :: _ =>
      r <- ranked scores ;;
      Ok (firstn MAX_TOP r)
  end.

(** A row the loop gets through: both labels, and a weight that [float]
    converts, NaN included, or no weight. *)
Definition usable (row : disease_row) : bool :=
  match disease row, finding_text row, weight row with
  | Some _, Some _, Some (NotNumber _) => false
  | Some _, Some _, _ => true
  | _, _, _ => false
  end.

Definition contributes (found : list cell) (row : disease_row) : bool :=
  match finding_text row with
  | Some f => member (normalize f) found
  | None => false
  end.



Definition is_nan (a : number) : bool :=
  match a with
  | Nan => true
  | _ => false
  end.

(** The loop without its exceptions. *)
Fixpoint accumulate (found : list cell) (rows : list disease_row)
  (scores : dict) : dict :=
  match rows with
  | [] => scores
  | row :: rest =>
      accumulate found rest
        (if contributes found row then
           dict_set (get (disease row) "")
             (add (dict_get (get (disease row) "") scores (Fin 0))
                  (match weight row with
                   | Some (Number x) => x
                   | _ => Fin 1
                   end)) scores
         else scores)
  end.

End Float64.







(** Every character of the string is an ASCII character; on such strings
    [Text.strip] and [Text.lower] are [str.strip] and [str.lower]. *)
Fixpoint ascii_only (s : string) : bool :=
  match s with
  | EmptyString => true
  | String c s' => (Text.code c <? 128)%N && ascii_only s'
  end.

(** The phrase of the row, as [str] prints it, is ASCII. *)
Definition ascii_phrase (row : symptom_row) : bool :=
  match phrase row with
  | Some p => ascii_only (str p)
  | None => true
  end.

(** The evidence of the example with the row of Pneumonia first. *)
Definition pneumonia_first : list disease_row :=
  [evidence "Pneumonia" "Cough" 3; evidence "Flu" "Fever" 2;
   evidence "Flu" "Cough" 1].

(** * Properties *)

Lemma bind_Ok {A B : Type} (a : A) (k : A -> result B) : bind (Ok a) k = k a.
Proof. reflexivity. Qed.

Example normalize_demo : normalize (Str "  FEVER and cough") = "fever and cough".
Proof. reflexivity. Qed.

Example normalize_missing : normalize NaN = "nan".
Proof. reflexivity. Qed.

Example feverish_matches :
  parse_findings "Feverish since Monday" [mk_symptom (Some (Str "fever")) (Some (Str "Fever"))]
  = Ok [Str "Fever"].
Proof. reflexivity. Qed.

Example empty_dictionary (text : string) : parse_findings text [] = Ok [].
Proof. reflexivity. Qed.

(** ** Facts on strings *)

Module TextFacts.
Import Text.

Lemma starts_with_spec (p s : string) :
  starts_with p s = true <-> exists post, s = (p ++ post)%string.
Proof.
  revert s; induction p as [|a p IH]; intros s; simpl.
  - split; [intros _; now exists s | reflexivity].
  - destruct s as [|b s].
    + split; [discriminate | intros [post H]; discriminate].
    + rewrite andb_true_iff, Ascii.eqb_eq, IH. split.
      * intros [-> [post ->]]. now exists post.
      * intros [post H]. injection H as -> ->. split; [reflexivity | now exists post].
Qed.

Lemma contains_spec (p s : string) :
  contains p s = true <-> occurs_in p s.
Proof.
  unfold occurs_in. induction s as [|b s IH].
  - simpl. rewrite orb_false_r, starts_with_spec. split.
    + intros [post H]. now exists EmptyString, post.
    + intros [pre [post H]]. destruct pre; simpl in H.
      * now exists post.
      * discriminate.
  - change (contains p (String b s))
      with (starts_with p (String b s) || contains p s).
    rewrite orb_true_iff, starts_with_spec, IH. split.
    + intros [[post H] | [pre [post H]]].
      * now exists EmptyString, post.
      * exists (String b pre), post. simpl. now rewrite H.
    + intros [pre [post H]]. destruct pre as [|c pre]; simpl in H.
      * left. now exists post.
      * right. injection H as _ H. now exists pre, post.
Qed.

Lemma lstrip_spec (s : string) :
  exists l, s = (l ++ lstrip s)%string /\ blank l = true
            /\ tight_left (lstrip s) = true.
Proof.
  induction s as [|c s [l [E [B T]]]].
  - now exists EmptyString.
  - simpl. destruct (is_space c) eqn:Hc.
    + exists (String c l). simpl. rewrite Hc, B. now rewrite <- E.
    + exists EmptyString. simpl. now rewrite Hc.
Qed.

Lemma rstrip_spec (s : string) :
  exists r, s = (rstrip s ++ r)%string /\ blank r = true
            /\ tight_right (rstrip s) = true.
Proof.
  induction s as [|c s [r [E [B T]]]].
  - now exists EmptyString.
  - simpl. destruct (is_space c) eqn:Hc; simpl.
    + destruct (rstrip s) as [|d t] eqn:Hr; simpl.
      * exists (String c r). simpl. rewrite Hc, B. simpl in E. now rewrite <- E.
      * exists r. repeat split; trivial. simpl in E. now rewrite <- E.
    + exists r. rewrite <- E. repeat split; trivial.
      destruct (rstrip s); simpl; [now rewrite Hc | exact T].
Qed.

Lemma rstrip_tight_left (s : string) :
  tight_left s = true -> tight_left (rstrip s) = true.
Proof.
  destruct s as [|c s]; simpl; trivial.
  intros H. apply negb_true_iff in H. rewrite H. simpl. now rewrite H.
Qed.

Lemma append_assoc (a b c : string) :
  ((a ++ b) ++ c = a ++ (b ++ c))%string.
Proof. induction a; simpl; congruence. Qed.

(** [strip] removes a blank prefix and a blank suffix, and what is left
    neither starts nor ends with white space. *)
Lemma strip_spec (s : string) :
  exists l r, s = (l ++ strip s ++ r)%string
              /\ blank l = true /\ blank r = true
              /\ tight_left (strip s) = true /\ tight_right (strip s) = true.
Proof.
  destruct (lstrip_spec s) as [l [El [Bl Tl]]].
  destruct (rstrip_spec (lstrip s)) as [r [Er [Br Tr]]].
  exists l, r. unfold strip. rewrite <- Er, <- El.
  repeat split; trivial. now apply rstrip_tight_left.
Qed.

Lemma lower_append (a b : string) :
  lower (a ++ b)%string = (lower a ++ lower b)%string.
Proof. induction a; simpl; congruence. Qed.

Lemma lower_char_idem (c : ascii) : lower_char (lower_char c) = lower_char c.
Proof.
  destruct c as [[] [] [] [] [] [] [] []]; reflexivity.
Qed.

Lemma lower_idem (s : string) : lower (lower s) = lower s.
Proof. induction s; simpl; [|rewrite lower_char_idem]; congruence. Qed.

End TextFacts.

(** ** Facts on the extractor *)

Lemma parse_loop_labelled (text : string) (rows : list symptom_row) :
  forallb has_labels rows = true ->
  forall found,
    parse_loop text rows found
    = Ok (found ++ map canonical (filter (matches text) rows)).
Proof.
  induction rows as [|row rest IH]; intros H found; simpl.
  - now rewrite app_nil_r.
  - simpl in H. apply andb_true_iff in H as [Hrow Hrest].
    unfold has_labels in Hrow. unfold parse_row.
    destruct (phrase row) as [p|] eqn:Hp; [|discriminate].
    destruct (canonical_text row) as [c|] eqn:Hc; [|discriminate].
    assert (Hm : matches text row
                 = Text.contains (normalize p) (normalize (Str text)))
      by (unfold matches; now rewrite Hp).
    assert (Hcan : canonical row = c) by (unfold canonical; now rewrite Hc).
    rewrite Hm. simpl.
    destruct (Text.contains _ _); simpl.
    + rewrite IH by assumption. rewrite Hcan, <- app_assoc. reflexivity.
    + now apply IH.
Qed.

Lemma parse_findings_labelled (text : string) (df : list symptom_row) :
  forallb has_labels df = true ->
  parse_findings text df = Ok (map canonical (filter (matches text) df)).
Proof. intros H. unfold parse_findings. now rewrite parse_loop_labelled. Qed.


(** ** Facts on the [scores] dict *)

Lemma score_loop_usable (found : list cell) (rows : list disease_row) :
  forallb usable rows = true ->
  forall scores, score_loop found rows scores = Ok (accumulate found rows scores).
Proof.
  induction rows as [|row rest IH]; intros H scores; simpl; trivial.
  simpl in H. apply andb_true_iff in H as [Hrow Hrest].
  unfold score_row, contributes, disease_name, weight_of, usable in *.
  destruct (disease row) as [dx|]; [|discriminate].
  destruct (finding_text row) as [f|]; [|discriminate].
  destruct (weight row) as [[x|s]|]; try discriminate; simpl;
    destruct (member (normalize f) found); simpl; now apply IH.
Qed.

Lemma keys_dict_set (dx : string) (v : R) (scores : dict) :
  keys (dict_set dx v scores) = add_key (keys scores) dx.
Proof.
  unfold add_key, keys. induction scores as [|[k v'] rest IH]; simpl; trivial.
  destruct (String.eqb dx k) eqn:E; simpl; trivial.
  rewrite IH. now destruct (existsb _ _).
Qed.

Lemma keys_accumulate (found : list cell) (rows : list disease_row) :
  forall scores,
    keys (accumulate found rows scores)
    = fold_left add_key (contributors found rows) (keys scores).
Proof.
  unfold contributors.
  induction rows as [|row rest IH]; intros scores; simpl; trivial.
  rewrite IH. destruct (contributes found row); simpl; trivial.
  now rewrite keys_dict_set.
Qed.

Lemma existsb_eqb_In (d : string) (l : list string) :
  existsb (String.eqb d) l = true <-> In d l.
Proof.
  rewrite existsb_exists. split.
  - intros [x [Hin E]]. apply String.eqb_eq in E. now subst.
  - intros H. exists d. split; trivial. apply String.eqb_refl.
Qed.

Lemma index_of_app_in (d : string) (l m : list string) :
  In d l -> index_of d (l ++ m) = index_of d l.
Proof.
  induction l as [|x l IH]; simpl; [contradiction|].
  intros H. destruct (String.eqb d x) eqn:E; trivial.
  f_equal. apply IH. destruct H as [->|H]; trivial.
  rewrite String.eqb_refl in E. discriminate.
Qed.

Lemma index_of_lt (d : string) (l : list string) :
  In d l -> index_of d l < List.length l.
Proof.
  induction l as [|x l IH]; simpl; [contradiction|].
  intros H. destruct (String.eqb d x) eqn:E; [lia|].
  apply -> Nat.succ_lt_mono. apply IH. destruct H as [->|H]; trivial.
  rewrite String.eqb_refl in E. discriminate.
Qed.

Lemma index_of_app_fresh (d : string) (l : list string) :
  ~ In d l -> index_of d (l ++ [d]) = List.length l.
Proof.
  induction l as [|x l IH]; simpl; intros H.
  - now rewrite String.eqb_refl.
  - destruct (String.eqb d x) eqn:E.
    + apply String.eqb_eq in E. subst. tauto.
    + f_equal. apply IH. tauto.
Qed.

Lemma StronglySorted_snoc {A : Type} (Rel : A -> A -> Prop) (l : list A) (x : A) :
  StronglySorted Rel l -> Forall (fun a => Rel a x) l ->
  StronglySorted Rel (l ++ [x]).
Proof.
  induction 1 as [|a l Hs IH Ha]; intros Hx; simpl.
  - repeat constructor.
  - inversion Hx; subst. constructor; [now apply IH|].
    apply Forall_app. split; trivial. now constructor.
Qed.

Lemma StronglySorted_weaken {A : Type} (Rel Rel' : A -> A -> Prop) (l : list A) :
  (forall a b, In a l -> In b l -> Rel a b -> Rel' a b) ->
  StronglySorted Rel l -> StronglySorted Rel' l.
Proof.
  intros Himp Hs. induction Hs as [|a l Hs IH Ha]; constructor.
  - apply IH. intros x y Hx Hy. apply Himp; now right.
  - rewrite Forall_forall in *. intros b Hb.
    apply Himp; [now left | now right | now apply Ha].
Qed.

(** The keys collected from a list of contributions: no key twice, the
    diseases of the list and no other, in the order of first occurrence. *)
Lemma first_seen_order (l : list string) :
  let ks := fold_left add_key l [] in
  NoDup ks /\ (forall d, In d ks <-> In d l)
  /\ StronglySorted (fun a b => index_of a l < index_of b l) ks.
Proof.
  induction l as [|x l IH] using rev_ind; simpl.
  - repeat split; try constructor; tauto.
  - rewrite fold_left_app. simpl in *.
    destruct IH as [Hnd [Hin Hs]]. set (ks := fold_left add_key l []) in *.
    unfold add_key. destruct (existsb (String.eqb x) ks) eqn:E.
    + apply existsb_eqb_In in E. repeat split; trivial.
      * intros H. apply in_or_app. left. now apply Hin.
      * intros H. apply in_app_or in H as [H|[<-|[]]]; [now apply Hin | trivial].
      * apply StronglySorted_weaken with (2 := Hs). intros a b Ha Hb.
        rewrite !index_of_app_in by now apply Hin. trivial.
    + assert (Hx : ~ In x l).
      { intros H. apply Hin, existsb_eqb_In in H. congruence. }
      repeat split.
      * apply NoDup_app; repeat split; trivial.
        -- repeat constructor. intros [].
        -- intros d Hd [<-|[]]. now apply Hx, Hin.
      * intros H. apply in_app_or in H as [H|H]; apply in_or_app;
          [left; now apply Hin | now right].
      * intros H. apply in_app_or in H as [H|H]; apply in_or_app;
          [left; now apply Hin | now right].
      * apply StronglySorted_snoc.
        -- apply StronglySorted_weaken with (2 := Hs). intros a b Ha Hb.
           rewrite !index_of_app_in by now apply Hin. trivial.
        -- apply Forall_forall. intros a Ha. apply Hin in Ha.
           rewrite index_of_app_in, index_of_app_fresh by trivial.
           now apply index_of_lt.
Qed.

(** ** Facts on the stable sort *)

Lemma Forall_perm {A : Type} (l l' : list A) (P : A -> Prop) :
  Permutation l l' -> Forall P l -> Forall P l'.
Proof.
  intros Hp H. rewrite Forall_forall in *. intros x Hx. apply H.
  apply Permutation_in with (l := l'); [now symmetry | trivial].
Qed.

Section SortedFacts.

Context {A : Type} (key : A -> R).

Lemma insert_desc_perm (x : A) (l : list A) :
  Permutation (insert_desc key x l) (x :: l).
Proof.
  induction l as [|y l IH]; simpl; [reflexivity|].
  destruct (Rlt_dec (key x) (key y)); [|reflexivity].
  rewrite IH. apply perm_swap.
Qed.

Lemma sorted_desc_perm (l : list A) : Permutation (sorted_desc key l) l.
Proof.
  induction l as [|x l IH]; simpl; [reflexivity|].
  rewrite insert_desc_perm. now constructor.
Qed.

Lemma sorted_desc_length (l : list A) :
  List.length (sorted_desc key l) = List.length l.
Proof. apply Permutation_length, sorted_desc_perm. Qed.

(** An element that is not smaller than the head stays in front. *)
Lemma insert_desc_front (x y : A) (l : list A) :
  ~ (key x < key y)%R -> insert_desc key x (y :: l) = x :: y :: l.
Proof. intros H. simpl. now destruct (Rlt_dec (key x) (key y)). Qed.

(** Stability.  [before] is the order of the input; the output is
    ordered by key, and by [before] among equal keys. *)
Variable before : A -> A -> Prop.

Lemma key_then_before_ge (a b : A) :
  key_then_before key before a b -> (key b <= key a)%R.
Proof. intros [H|[H _]]; lra. Qed.

Lemma insert_desc_stable (x : A) (l : list A) :
  StronglySorted (key_then_before key before) l -> Forall (before x) l ->
  StronglySorted (key_then_before key before) (insert_desc key x l).
Proof.
  induction 1 as [|y l Hs IH Hy]; intros Hx; simpl.
  - repeat constructor.
  - inversion Hx as [|? ? Hxy Hxl]; subst.
    destruct (Rlt_dec (key x) (key y)) as [Hlt|Hge].
    + constructor; [now apply IH|].
      apply (Forall_perm (x :: l)).
      * symmetry. apply insert_desc_perm.
      * constructor; trivial. now left.
    + constructor; [now constructor|].
      assert (Hall : Forall (before x) (y :: l)) by now constructor.
      assert (Hle : Forall (fun z => (key z <= key y)%R) (y :: l)).
      { constructor; [lra|]. eapply Forall_impl; [|exact Hy].
        intros z. apply key_then_before_ge. }
      rewrite Forall_forall in *. intros z Hz.
      specialize (Hall z Hz). specialize (Hle z Hz). unfold key_then_before.
      destruct (Rlt_dec (key z) (key x)); [now left | right; split; [lra | trivial]].
Qed.

Lemma sorted_desc_stable (l : list A) :
  StronglySorted before l ->
  StronglySorted (key_then_before key before) (sorted_desc key l).
Proof.
  induction 1 as [|x l Hs IH Hx]; simpl; [constructor|].
  apply insert_desc_stable; trivial.
  apply (Forall_perm l); trivial.
  symmetry. apply sorted_desc_perm.
Qed.

End SortedFacts.

Lemma StronglySorted_firstn {A : Type} (Rel : A -> A -> Prop) (n : nat) (l : list A) :
  StronglySorted Rel l -> StronglySorted Rel (firstn n l).
Proof.
  intros Hs. revert n. induction Hs as [|a l Hs IH Ha]; intros [|n]; simpl;
    try constructor; trivial.
  rewrite Forall_forall in *. intros b Hb. apply Ha.
  rewrite <- (firstn_skipn n l). apply in_or_app. now left.
Qed.

Lemma StronglySorted_map_inv {A B : Type} (f : A -> B) (Rel : B -> B -> Prop)
  (l : list A) :
  StronglySorted Rel (map f l) -> StronglySorted (fun a b => Rel (f a) (f b)) l.
Proof.
  induction l as [|a l IH]; simpl; intros H; [constructor|].
  inversion H as [|? ? Hs Ha]; subst. constructor; [now apply IH|].
  rewrite Forall_forall in *. intros b Hb. apply Ha. now apply in_map.
Qed.

(** ** Facts on softmax and rounding *)

Lemma fold_left_Rplus (l : list R) (a : R) :
  fold_left Rplus l a = (a + rsum l)%R.
Proof.
  revert a. induction l as [|x l IH]; intros a; simpl; [lra|].
  rewrite IH. lra.
Qed.

Lemma np_sum_rsum (l : list R) : np_sum l = rsum l.
Proof. unfold np_sum. rewrite fold_left_Rplus. lra. Qed.

Lemma rsum_div (l : list R) (s : R) :
  rsum (map (fun v => v / s) l)%R = (rsum l / s)%R.
Proof. induction l as [|x l IH]; simpl; [lra | rewrite IH; lra]. Qed.

Lemma rsum_exp_pos (l : list R) (m : R) :
  l <> [] -> (0 < rsum (map (fun v => exp (v - m)) l))%R.
Proof.
  induction l as [|x l IH]; [congruence|]. intros _. simpl.
  pose proof (exp_pos (x - m)).
  destruct l as [|y l]; [simpl; lra|].
  assert (0 < rsum (map (fun v => exp (v - m)) (y :: l)))%R
    by (apply IH; discriminate).
  lra.
Qed.

Lemma softmax_cons (a : R) (rest : list R) :
  exists probs, softmax (a :: rest) = Ok probs
                /\ List.length probs = S (List.length rest)
                /\ rsum probs = 1%R.
Proof.
  unfold softmax. simpl np_max. cbv beta iota delta [bind].
  set (m := fold_left Rmax rest a).
  eexists. split; [reflexivity|]. split.
  - now rewrite !length_map.
  - rewrite rsum_div, np_sum_rsum.
    assert (0 < rsum (map (fun v => exp (v - m)) (a :: rest)))%R
      by (apply rsum_exp_pos; discriminate).
    field. lra.
Qed.

Lemma rint_near (x : R) : (- (1 / 2) <= IZR (rint x) - x <= 1 / 2)%R.
Proof.
  unfold rint. destruct (base_Int_part x) as [Hlo Hhi].
  set (f := Int_part x) in *.
  destruct (Rlt_dec (x - IZR f) (1 / 2)) as [H1|H1].
  - lra.
  - destruct (Rlt_dec (1 / 2) (x - IZR f)) as [H2|H2].
    + rewrite plus_IZR. lra.
    + destruct (Z.even f); [|rewrite plus_IZR]; lra.
Qed.

(** A number strictly within a half of an integer rounds to it. *)
Lemma rint_eval (x : R) (z : Z) :
  (IZR z - 1 / 2 < x < IZR z + 1 / 2)%R -> rint x = z.
Proof.
  intros [Hlo Hhi]. pose proof (rint_near x) as H.
  set (r := rint x) in *.
  assert (r < z + 1)%Z by (apply lt_IZR; rewrite plus_IZR; lra).
  assert (z < r + 1)%Z by (apply lt_IZR; rewrite plus_IZR; lra).
  lia.
Qed.

Lemma round_near (y : R) : (- (1 / 20) <= round y 1 - y <= 1 / 20)%R.
Proof.
  unfold round. simpl pow. rewrite Rmult_1_r.
  pose proof (rint_near (y * 10)) as H. lra.
Qed.

(** ** Facts on the scorer *)

Lemma names_candidates_of (names : list string) (probs : list R) :
  List.length names = List.length probs ->
  map name (candidates_of names probs) = names.
Proof.
  unfold candidates_of. revert probs.
  induction names as [|n names IH]; intros [|p probs] H; simpl in *;
    try discriminate; trivial.
  f_equal. apply IH. lia.
Qed.


(** Each percentage is within a twentieth of a hundred times its
    probability, so a list of [n] percentages is within [n] twentieths of
    a hundred times the sum of the probabilities. *)
Lemma total_candidates_of (names : list string) (probs : list R) :
  List.length names = List.length probs ->
  (- (INR (List.length probs) / 20)
   <= total (candidates_of names probs) - 100 * rsum probs
   <= INR (List.length probs) / 20)%R.
Proof.
  unfold candidates_of, total. revert probs.
  induction names as [|n names IH]; intros [|p probs] H;
    try discriminate.
  - simpl. lra.
  - injection H as H. specialize (IH probs H).
    change (List.length (p :: probs)) with (S (List.length probs)).
    rewrite S_INR. simpl fold_right. simpl fst. simpl snd.
    pose proof (round_near (p * 100)). simpl rsum. simpl in IH. lra.
Qed.

Lemma keys_length (scores : dict) : List.length (keys scores) = List.length scores.
Proof. apply length_map. Qed.

Lemma values_length (scores : dict) : List.length (values scores) = List.length scores.
Proof. apply length_map. Qed.

(** On a usable table neither function raises; both are determined by the
    accumulated [scores] and the probabilities softmax gives them. *)
Lemma scoring_usable (found : list cell) (labs : list lab_row)
  (df : list disease_row) :
  forallb usable df = true ->
  let scores := accumulate found df [] in
  exists probs,
    List.length probs = List.length scores
    /\ (scores <> [] -> rsum probs = 1%R)
    /\ score_untruncated found labs df
       = Ok (sorted_desc probability (candidates_of (keys scores) probs))
    /\ score_differential found labs df
       = Ok (firstn MAX_TOP
               (sorted_desc probability (candidates_of (keys scores) probs))).
Proof.
  intros H scores. unfold score_untruncated, score_differential.
  rewrite score_loop_usable by assumption. fold scores. simpl bind.
  destruct scores as [|[k v] rest] eqn:E.
  - exists []. repeat split; trivial. congruence.
  - unfold ranked.
    destruct (softmax_cons v (values rest)) as [probs [Hs [Hlen Hsum]]].
    exists probs. change (values ((k, v) :: rest)) with (v :: values rest).
    rewrite Hs. simpl bind. repeat split; trivial.
    rewrite Hlen, values_length. reflexivity.
Qed.

Lemma keys_usable (found : list cell) (df : list disease_row) :
  keys (accumulate found df []) = fold_left add_key (contributors found df) [].
Proof. apply keys_accumulate. Qed.

(** The dict has one key for each distinct contributing disease. *)
Lemma scores_length (found : list cell) (df : list disease_row) :
  List.length (accumulate found df []) = contributing_diseases found df.
Proof.
  rewrite <- keys_length, keys_usable. unfold contributing_diseases.
  destruct (first_seen_order (contributors found df)) as [Hnd [Hin _]].
  apply Permutation_length, NoDup_Permutation; trivial.
  - apply NoDup_nodup.
  - intros d. rewrite Hin. symmetry. apply nodup_In.
Qed.

Lemma no_contribution (found : list cell) (df : list disease_row) :
  existsb (contributes found) df = false -> contributors found df = [].
Proof.
  unfold contributors. induction df as [|row df IH]; simpl; trivial.
  intros H. apply orb_false_iff in H as [Hrow Hdf]. rewrite Hrow. now apply IH.
Qed.

Lemma some_contribution (found : list cell) (df : list disease_row) :
  existsb (contributes found) df = true -> contributors found df <> [].
Proof.
  unfold contributors. induction df as [|row df IH]; simpl; [discriminate|].
  destruct (contributes found row); simpl; [discriminate | exact IH].
Qed.

(** Membership in [found] only depends on the elements of [found]. *)
Lemma member_same_elements (finding : string) (found1 found2 : list cell) :
  (forall c, In c found1 <-> In c found2) ->
  member finding found1 = member finding found2.
Proof.
  intros H. unfold member. apply eq_true_iff_eq.
  rewrite !existsb_exists. split; intros [c [Hin Hc]]; exists c;
    (split; [now apply H | trivial]).
Qed.

Lemma score_loop_same_elements (found1 found2 : list cell)
  (rows : list disease_row) :
  (forall c, In c found1 <-> In c found2) ->
  forall scores, score_loop found1 rows scores = score_loop found2 rows scores.
Proof.
  intros H. induction rows as [|row rest IH]; intros scores; simpl; trivial.
  assert (Hrow : score_row found1 row scores = score_row found2 row scores).
  { unfold score_row. destruct (getitem "disease" (disease row)); simpl; trivial.
    destruct (getitem "finding_text" (finding_text row)) as [f|]; simpl; trivial.
    now rewrite (member_same_elements (normalize f) found1 found2 H). }
  rewrite Hrow. destruct (score_row found2 row scores); simpl; trivial.
Qed.

(** A weight that [float] rejects stops the loop. *)
Lemma score_loop_not_number (found : list cell) (rows : list disease_row) :
  (exists row s, In row rows /\ weight row = Some (NotNumber s)) ->
  forall scores, exists e, score_loop found rows scores = Raise e.
Proof.
  induction rows as [|row rest IH]; intros [bad [s [Hin Hbad]]] scores.
  - destruct Hin.
  - simpl. destruct (score_row found row scores) as [scores'|e] eqn:Hrow; simpl.
    + destruct Hin as [->|Hin].
      * unfold score_row in Hrow. rewrite Hbad in Hrow.
        destruct (getitem "disease" (disease bad)); simpl in Hrow; try discriminate.
        destruct (getitem "finding_text" (finding_text bad)); simpl in Hrow;
          discriminate.
      * apply IH. now exists bad, s.
    + now exists e.
Qed.

Lemma score_loop_default_weight (found : list cell) (rows : list disease_row) :
  forall scores,
    score_loop found (map with_default_weight rows) scores
    = score_loop found rows scores.
Proof.
  induction rows as [|row rest IH]; intros scores; simpl; trivial.
  assert (Hrow : score_row found (with_default_weight row) scores
                 = score_row found row scores) by reflexivity.
  rewrite Hrow. destruct (score_row found row scores); simpl; trivial.
Qed.

(** ** The example of the specification *)

(** C1. On the example of the specification the extractor returns the
    canonical texts as the dictionary spells them, [Fever] and [Cough].
    The scorer compares them with the normalised, hence lower-case,
    [finding_text] of each evidence row ([fever], [cough]); no row
    contributes and the result is the empty list, not Flu and Pneumonia
    at 50.0 each. *)
Theorem spec_example_scores_nothing :
  parse_findings spec_text spec_dictionary = Ok [Str "Fever"; Str "Cough"]
  /\ score_loop [Str "Fever"; Str "Cough"] spec_evidence [] = Ok []
  /\ forall labs,
       (found <- parse_findings spec_text spec_dictionary ;;
        score_differential found labs spec_evidence) = Ok [].
Proof. split; [|split; [|intros labs]]; reflexivity. Qed.

(** ** Ties *)

Lemma fold_left_Rmax_repeat (a : R) (n : nat) :
  fold_left Rmax (repeat a n) a = a.
Proof.
  induction n as [|n IH]; simpl; trivial.
  now rewrite Rmax_left by lra.
Qed.

Lemma rsum_repeat (a : R) (n : nat) : rsum (repeat a n) = (INR n * a)%R.
Proof.
  induction n as [|n IH]; [simpl; lra|].
  rewrite S_INR. simpl. rewrite IH. lra.
Qed.

(** Equal raw scores get equal shares. *)
Lemma softmax_uniform (a : R) (n : nat) :
  softmax (repeat a (S n)) = Ok (repeat (1 / INR (S n))%R (S n)).
Proof.
  unfold softmax. simpl np_max. rewrite fold_left_Rmax_repeat.
  cbv beta iota delta [bind]. rewrite np_sum_rsum, !map_repeat.
  rewrite Rminus_diag, exp_0, rsum_repeat, Rmult_1_r. reflexivity.
Qed.

Lemma sorted_desc_ties {A : Type} (key : A -> R) (l : list A) :
  (forall a b, In a l -> In b l -> key a = key b) ->
  sorted_desc key l = l.
Proof.
  induction l as [|x l IH]; intros H; simpl; trivial.
  rewrite IH by (intros a b Ha Hb; apply H; now right).
  destruct l as [|y l]; trivial.
  apply insert_desc_front. rewrite (H x y); [lra | now left | right; now left].
Qed.

Lemma round_half : round (1 / INR 2 * 100) 1 = 50%R.
Proof.
  unfold round.
  assert (E : (1 / INR 2 * 100 * 10 ^ 1 = 500)%R) by (cbn [INR pow]; lra).
  rewrite E, (rint_eval 500 500) by (split; lra). cbn [pow]. lra.
Qed.

(** With the canonical texts in lower case the example gives what the
    specification expects. *)
Lemma spec_example_lower_case (labs : list lab_row) :
  score_differential [Str "fever"; Str "cough"] labs spec_evidence
  = Ok [mk_candidate "Flu" 50; mk_candidate "Pneumonia" 50].
Proof.
  unfold score_differential.
  assert (Hs : score_loop [Str "fever"; Str "cough"] spec_evidence []
               = Ok [("Flu", 3%R); ("Pneumonia", 3%R)]).
  { rewrite score_loop_usable by reflexivity.
    simpl. unfold weight_of, disease_name, evidence. simpl.
    repeat f_equal; lra. }
  rewrite Hs, bind_Ok. unfold ranked.
  change (values [("Flu", 3%R); ("Pneumonia", 3%R)]) with (repeat 3%R 2).
  rewrite softmax_uniform, !bind_Ok.
  change (map _ (combine _ _))
    with [mk_candidate "Flu" (round (1 / INR 2 * 100) 1);
          mk_candidate "Pneumonia" (round (1 / INR 2 * 100) 1)].
  rewrite round_half, sorted_desc_ties; [reflexivity|].
  intros a b [<-|[<-|[]]] [<-|[<-|[]]]; reflexivity.
Qed.

(** ** The extractor *)

Lemma lower_char_space (c : ascii) :
  Text.is_space (Text.lower_char c) = Text.is_space c.
Proof. destruct c as [[] [] [] [] [] [] [] []]; reflexivity. Qed.

Lemma lower_blank (s : string) : Text.blank (Text.lower s) = Text.blank s.
Proof. induction s; simpl; [|rewrite lower_char_space]; congruence. Qed.

Lemma lower_tight_left (s : string) :
  Text.tight_left (Text.lower s) = Text.tight_left s.
Proof. destruct s; simpl; [|rewrite lower_char_space]; reflexivity. Qed.

Lemma lower_tight_right (s : string) :
  Text.tight_right (Text.lower s) = Text.tight_right s.
Proof.
  induction s as [|c s IH]; trivial.
  destruct s as [|d s]; [simpl; now rewrite lower_char_space | exact IH].
Qed.

(** [normalize] is the text in lower case without the white space around
    it. *)
Lemma normalize_spec (s : string) :
  exists l r, Text.lower s = (l ++ normalize (Str s) ++ r)%string
              /\ Text.blank l = true /\ Text.blank r = true
              /\ Text.tight_left (normalize (Str s)) = true
              /\ Text.tight_right (normalize (Str s)) = true.
Proof.
  destruct (TextFacts.strip_spec s) as [l [r [E [Bl [Br [Tl Tr]]]]]].
  exists (Text.lower l), (Text.lower r). unfold normalize, str.
  rewrite !lower_blank, lower_tight_left, lower_tight_right.
  repeat split; trivial.
  rewrite E at 1. now rewrite !TextFacts.lower_append.
Qed.






(** C4, as stated, fails: two phrases of one canonical finding that both
    occur in the text put the finding into the result twice. *)
Lemma canonical_listed_twice :
  parse_findings "febrile, fever 39" [entry "fever" "Fever"; entry "febrile" "Fever"]
  = Ok [Str "Fever"; Str "Fever"]
  /\ ~ NoDup [Str "Fever"; Str "Fever"].
Proof.
  split; [reflexivity|]. intros H. inversion H as [|? ? Hin _]; subst.
  apply Hin. now left.
Qed.

Lemma count_occ_map_filter {A : Type} (f : A -> cell) (p : A -> bool)
  (l : list A) (c : cell) :
  count_occ cell_eq_dec (map f (filter p l)) c
  = List.length (filter (fun x => p x && cell_eqb (f x) c) l).
Proof.
  induction l as [|x l IH]; simpl; trivial.
  unfold cell_eqb. destruct (p x); simpl; trivial.
  destruct (cell_eq_dec (f x) c); simpl; now rewrite IH.
Qed.

(** C4, amended.  The result is a list with one entry per matching row: a
    canonical finding occurs in it as many times as there are matching rows
    that map to it. *)
Theorem one_entry_per_matching_row (text : string) (df : list symptom_row)
  (c : cell) :
  forallb has_labels df = true ->
  exists found,
    parse_findings text df = Ok found
    /\ count_occ cell_eq_dec found c
       = List.length
           (filter (fun row => matches text row && cell_eqb (canonical row) c) df).
Proof.
  intros H. eexists. split; [now apply parse_findings_labelled|].
  apply count_occ_map_filter.
Qed.

Lemma one_entry_per_matching_row_witness :
  exists found,
    parse_findings "febrile, fever 39"
      [entry "fever" "Fever"; entry "febrile" "Fever"] = Ok found
    /\ count_occ cell_eq_dec found (Str "Fever") = 2.
Proof.
  apply (one_entry_per_matching_row "febrile, fever 39"
           [entry "fever" "Fever"; entry "febrile" "Fever"] (Str "Fever")).
  reflexivity.
Defined.

(** ** The scorer *)

(** A text that is not a number makes [float] raise, also in a row that
    does not contribute. *)
Lemma text_weight_raises :
  score_differential [] []
    [mk_disease (Some "Flu") (Some (Str "fever")) (Some (NotNumber "n/a")) None]
  = Raise (ValueError "n/a").
Proof. reflexivity. Qed.

Lemma round_whole : round (1 / INR 1 * 100) 1 = 100%R.
Proof.
  unfold round.
  assert (E : (1 / INR 1 * 100 * 10 ^ 1 = 1000)%R) by (cbn [INR pow]; lra).
  rewrite E, (rint_eval 1000 1000) by (split; lra). cbn [pow]. lra.
Qed.

(** C6, as stated, fails: a disease whose raw score is zero is a
    candidate as well.  One row of weight 0 gives the raw score 0 and a
    list of length 1, where no disease has a raw score other than zero. *)
Lemma zero_score_is_ranked :
  score_loop [Str "fever"] [evidence "Flu" "fever" 0] [] = Ok [("Flu", (0 + 0)%R)]
  /\ nonzero_scores [("Flu", (0 + 0)%R)] = 0
  /\ score_differential [Str "fever"] [] [evidence "Flu" "fever" 0]
     = Ok [mk_candidate "Flu" 100]
  /\ List.length [mk_candidate "Flu" 100]
     <> Nat.min MAX_TOP (nonzero_scores [("Flu", (0 + 0)%R)]).
Proof.
  assert (Hz : nonzero_scores [("Flu", (0 + 0)%R)] = 0).
  { unfold nonzero_scores, nonzero. simpl.
    destruct (Req_dec_T (0 + 0) 0) as [_|Hne]; [reflexivity | exfalso; lra]. }
  split; [reflexivity|]. split; [exact Hz|]. split.
  - unfold score_differential.
    change (score_loop [Str "fever"] [evidence "Flu" "fever" 0] [])
      with (Ok [("Flu", (0 + 0)%R)]).
    rewrite bind_Ok. unfold ranked.
    change (values [("Flu", (0 + 0)%R)]) with (repeat (0 + 0)%R 1).
    rewrite softmax_uniform, !bind_Ok.
    change (map _ (combine _ _))
      with [mk_candidate "Flu" (round (1 / INR 1 * 100) 1)].
    now rewrite round_whole.
  - rewrite Hz. discriminate.
Qed.

(** C6, amended.  [MAX_TOP] = 5 is a constant of the program, not an
    argument.  On a usable table the list has at most [MAX_TOP] entries,
    namely the smaller of [MAX_TOP] and the number of diseases that
    received a contribution (of whatever sum); it is empty when no row's
    normalised finding is among the findings. *)
Theorem result_length (found : list cell) (labs : list lab_row)
  (df : list disease_row) :
  forallb usable df = true ->
  exists res,
    score_differential found labs df = Ok res
    /\ List.length res <= MAX_TOP
    /\ List.length res = Nat.min MAX_TOP (contributing_diseases found df)
    /\ (existsb (contributes found) df = false -> res = []).
Proof.
  intros H.
  destruct (scoring_usable found labs df H) as [probs [Hlen [_ [_ Hres]]]].
  eexists. split; [exact Hres|].
  assert (Hn : List.length (firstn MAX_TOP
                 (sorted_desc probability
                    (candidates_of (keys (accumulate found df [])) probs)))
               = Nat.min MAX_TOP (contributing_diseases found df)).
  { rewrite length_firstn, sorted_desc_length.
    rewrite <- (length_map name), names_candidates_of
      by (now rewrite keys_length).
    now rewrite keys_length, scores_length. }
  split; [rewrite Hn; apply Nat.le_min_l|]. split; [exact Hn|].
  intros Hnone. apply length_zero_iff_nil. rewrite Hn.
  unfold contributing_diseases. now rewrite no_contribution.
Qed.

Lemma result_length_witness :
  exists res,
    score_differential [Str "fever"; Str "cough"] [] spec_evidence = Ok res
    /\ List.length res <= MAX_TOP
    /\ List.length res = 2
    /\ (existsb (contributes [Str "fever"; Str "cough"]) spec_evidence = false
        -> res = []).
Proof.
  apply (result_length [Str "fever"; Str "cough"] [] spec_evidence).
  reflexivity.
Defined.

(** C7. On a usable table the ranked list has one candidate for each
    disease that received a contribution, and no other; the returned list
    is its first [MAX_TOP] entries.  Both are in non-increasing order of
    the rounded percentage, and among equal percentages in the order in
    which the diseases first received a contribution. *)
Theorem ranking_sorted_stable (found : list cell) (labs : list lab_row)
  (df : list disease_row) :
  forallb usable df = true ->
  exists full res,
    score_untruncated found labs df = Ok full
    /\ score_differential found labs df = Ok res
    /\ res = firstn MAX_TOP full
    /\ NoDup (map name full)
    /\ (forall d, In d (map name full) <-> In d (contributors found df))
    /\ List.length full = contributing_diseases found df
    /\ StronglySorted (fun a b => (probability b <= probability a)%R) full
    /\ StronglySorted (ranks_before (contributors found df)) full
    /\ StronglySorted (fun a b => (probability b <= probability a)%R) res
    /\ StronglySorted (ranks_before (contributors found df)) res.
Proof.
  intros H.
  destruct (scoring_usable found labs df H)
    as [probs [Hlen [_ [Hfull Hres]]]].
  set (scores := accumulate found df []) in *.
  set (cands := candidates_of (keys scores) probs) in *.
  assert (Hnames : map name cands = keys scores).
  { apply names_candidates_of. now rewrite keys_length. }
  assert (Hperm : Permutation (map name (sorted_desc probability cands))
                              (keys scores)).
  { rewrite <- Hnames. apply Permutation_map, sorted_desc_perm. }
  destruct (first_seen_order (contributors found df)) as [Hnd [Hin Hord]].
  rewrite <- keys_usable in Hnd, Hin, Hord. fold scores in Hnd, Hin, Hord.
  assert (Hs : StronglySorted (ranks_before (contributors found df))
                 (sorted_desc probability cands)).
  { apply (sorted_desc_stable probability
             (fun a b => index_of (name a) (contributors found df)
                         < index_of (name b) (contributors found df))).
    apply StronglySorted_map_inv
      with (f := name)
           (Rel := fun a b => index_of a (contributors found df)
                              < index_of b (contributors found df)).
    now rewrite Hnames. }
  assert (Hge : forall l,
            StronglySorted (ranks_before (contributors found df)) l ->
            StronglySorted (fun a b => (probability b <= probability a)%R) l).
  { intros l Hl. apply StronglySorted_weaken with (2 := Hl).
    intros a b _ _ [Hlt|[Heq _]]; lra. }
  exists (sorted_desc probability cands),
         (firstn MAX_TOP (sorted_desc probability cands)).
  split; [exact Hfull|]. split; [exact Hres|]. split; [reflexivity|].
  split.
  { apply (Permutation_NoDup (Permutation_sym Hperm)), Hnd. }
  split.
  { intros d. rewrite <- Hin. split; apply Permutation_in;
      [exact Hperm | exact (Permutation_sym Hperm)]. }
  split.
  { rewrite <- (length_map name), (Permutation_length Hperm), keys_length.
    apply scores_length. }
  split; [now apply Hge|]. split; [exact Hs|].
  split; [apply Hge|]; now apply StronglySorted_firstn.
Qed.

Lemma ranking_sorted_stable_witness :
  exists full res,
    score_untruncated [Str "fever"; Str "cough"] [] spec_evidence = Ok full
    /\ score_differential [Str "fever"; Str "cough"] [] spec_evidence = Ok res
    /\ res = firstn MAX_TOP full
    /\ NoDup (map name full)
    /\ (forall d, In d (map name full)
                  <-> In d (contributors [Str "fever"; Str "cough"] spec_evidence))
    /\ List.length full = 2
    /\ StronglySorted (fun a b => (probability b <= probability a)%R) full
    /\ StronglySorted
         (ranks_before (contributors [Str "fever"; Str "cough"] spec_evidence))
         full
    /\ StronglySorted (fun a b => (probability b <= probability a)%R) res
    /\ StronglySorted
         (ranks_before (contributors [Str "fever"; Str "cough"] spec_evidence))
         res.
Proof.
  apply (ranking_sorted_stable [Str "fever"; Str "cough"] [] spec_evidence).
  reflexivity.
Defined.

(** Two diseases tied at 50.0: the one whose row comes first in the table
    comes first in the result. *)
Lemma tie_follows_table_order (labs : list lab_row) :
  score_differential [Str "fever"; Str "cough"] labs spec_evidence
  = Ok [mk_candidate "Flu" 50; mk_candidate "Pneumonia" 50]
  /\ score_differential [Str "fever"; Str "cough"] labs pneumonia_first
     = Ok [mk_candidate "Pneumonia" 50; mk_candidate "Flu" 50].
Proof.
  split; [apply spec_example_lower_case|].
  unfold score_differential.
  assert (Hs : score_loop [Str "fever"; Str "cough"] pneumonia_first []
               = Ok [("Pneumonia", 3%R); ("Flu", 3%R)]).
  { rewrite score_loop_usable by reflexivity.
    simpl. unfold weight_of, disease_name, evidence. simpl.
    repeat f_equal; lra. }
  rewrite Hs, bind_Ok. unfold ranked.
  change (values [("Pneumonia", 3%R); ("Flu", 3%R)]) with (repeat 3%R 2).
  rewrite softmax_uniform, !bind_Ok.
  change (map _ (combine _ _))
    with [mk_candidate "Pneumonia" (round (1 / INR 2 * 100) 1);
          mk_candidate "Flu" (round (1 / INR 2 * 100) 1)].
  rewrite round_half, sorted_desc_ties; [reflexivity|].
  intros a b [<-|[<-|[]]] [<-|[<-|[]]]; reflexivity.
Qed.



Lemma accumulate_nonempty (found : list cell) (df : list disease_row) :
  existsb (contributes found) df = true -> accumulate found df [] <> [].
Proof.
  intros H Hnil. apply (some_contribution found df H).
  destruct (first_seen_order (contributors found df)) as [_ [Hin _]].
  rewrite <- keys_usable, Hnil in Hin.
  destruct (contributors found df) as [|d l]; trivial.
  destruct (proj2 (Hin d)). now left.
Qed.





(** C9. The laboratory table has no part in the result. *)
Theorem labs_ignored (found : list cell) (labs1 labs2 : list lab_row)
  (df : list disease_row) :
  score_differential found labs1 df = score_differential found labs2 df.
Proof. reflexivity. Qed.

(** C10. Two collections of findings with the same elements give the same
    result, whatever the order and the repetitions. *)
Theorem findings_by_membership (found1 found2 : list cell)
  (labs : list lab_row) (df : list disease_row) :
  (forall c, In c found1 <-> In c found2) ->
  score_differential found1 labs df = score_differential found2 labs df.
Proof.
  intros H. unfold score_differential.
  now rewrite (score_loop_same_elements found1 found2 df H).
Qed.

Lemma findings_by_membership_witness :
  score_differential [Str "fever"; Str "cough"; Str "fever"] [] spec_evidence
  = score_differential [Str "cough"; Str "fever"] [] spec_evidence.
Proof.
  apply (findings_by_membership [Str "fever"; Str "cough"; Str "fever"]
                                [Str "cough"; Str "fever"] [] spec_evidence).
  intros c. simpl. tauto.
Defined.

(** In particular the result for a list of findings is the result for the
    list without its repetitions. *)
Lemma findings_deduplicated (found : list cell) (labs : list lab_row)
  (df : list disease_row) :
  score_differential (nodup cell_eq_dec found) labs df
  = score_differential found labs df.
Proof.
  unfold score_differential.
  rewrite (score_loop_same_elements (nodup cell_eq_dec found) found df); trivial.
  intros c. apply nodup_In.
Qed.

(** * Further properties of the code *)

(** ** [normalize] *)

Lemma lstrip_tight (s : string) :
  Text.tight_left s = true -> Text.lstrip s = s.
Proof.
  destruct s as [|c s]; simpl; trivial.
  intros H. apply negb_true_iff in H. now rewrite H.
Qed.

Lemma rstrip_tight (s : string) :
  Text.tight_right s = true -> Text.rstrip s = s.
Proof.
  induction s as [|c s IH]; trivial.
  destruct s as [|d s].
  - simpl. intros H. apply negb_true_iff in H. now rewrite H.
  - intros H. change (Text.tight_right (String d s) = true) in H.
    change (Text.rstrip (String c (String d s)))
      with (let r := Text.rstrip (String d s) in
            if Text.is_space c && Text.is_empty r then EmptyString
            else String c r).
    rewrite (IH H). simpl. now rewrite andb_false_r.
Qed.

Lemma strip_tight (s : string) :
  Text.tight_left s = true -> Text.tight_right s = true -> Text.strip s = s.
Proof.
  intros Hl Hr. unfold Text.strip. now rewrite lstrip_tight, rstrip_tight.
Qed.

Lemma lower_char_not_upper (c : ascii) :
  Text.is_upper (Text.lower_char c) = false.
Proof. destruct c as [[] [] [] [] [] [] [] []]; reflexivity. Qed.

Lemma lower_no_upper (s : string) : no_upper (Text.lower s) = true.
Proof.
  induction s as [|c s IH]; simpl; trivial.
  now rewrite lower_char_not_upper, IH.
Qed.

Lemma is_empty_lower (s : string) :
  Text.is_empty (Text.lower s) = Text.is_empty s.
Proof. now destruct s. Qed.

Lemma lstrip_lower (s : string) :
  Text.lstrip (Text.lower s) = Text.lower (Text.lstrip s).
Proof.
  induction s as [|c s IH]; simpl; trivial.
  rewrite lower_char_space. now destruct (Text.is_space c).
Qed.

Lemma rstrip_lower (s : string) :
  Text.rstrip (Text.lower s) = Text.lower (Text.rstrip s).
Proof.
  induction s as [|c s IH]; simpl; trivial.
  rewrite lower_char_space, IH, is_empty_lower.
  now destruct (Text.is_space c && Text.is_empty (Text.rstrip s)).
Qed.

Lemma strip_lower (s : string) :
  Text.strip (Text.lower s) = Text.lower (Text.strip s).
Proof. unfold Text.strip. now rewrite lstrip_lower, rstrip_lower. Qed.

Lemma lstrip_blank (l : string) :
  Text.blank l = true -> Text.lstrip l = EmptyString.
Proof.
  induction l as [|c l IH]; simpl; trivial.
  intros H. apply andb_true_iff in H as [Hc Hl]. rewrite Hc. auto.
Qed.

Lemma rstrip_blank (r : string) :
  Text.blank r = true -> Text.rstrip r = EmptyString.
Proof.
  induction r as [|c r IH]; simpl; trivial.
  intros H. apply andb_true_iff in H as [Hc Hr]. now rewrite Hc, IH.
Qed.

Lemma lstrip_pad (l s : string) :
  Text.blank l = true -> Text.lstrip (l ++ s)%string = Text.lstrip s.
Proof.
  induction l as [|c l IH]; simpl; trivial.
  intros H. apply andb_true_iff in H as [Hc Hl]. rewrite Hc. auto.
Qed.

Lemma rstrip_pad (s r : string) :
  Text.blank r = true -> Text.rstrip (s ++ r)%string = Text.rstrip s.
Proof.
  intros H. induction s as [|c s IH]; simpl.
  - now apply rstrip_blank.
  - now rewrite IH.
Qed.

Lemma lstrip_append (s r : string) :
  Text.blank r = true ->
  Text.rstrip (Text.lstrip (s ++ r)%string) = Text.rstrip (Text.lstrip s).
Proof.
  intros H. induction s as [|c s IH].
  - simpl. now rewrite lstrip_blank.
  - simpl. destruct (Text.is_space c); trivial.
    change (String c (s ++ r)%string) with (String c s ++ r)%string.
    now apply rstrip_pad.
Qed.

Lemma strip_pad (l s r : string) :
  Text.blank l = true -> Text.blank r = true ->
  Text.strip (l ++ s ++ r)%string = Text.strip s.
Proof.
  intros Hl Hr. unfold Text.strip. rewrite lstrip_pad by trivial.
  now apply lstrip_append.
Qed.

(** Two texts that differ in the case of their letters and in the white
    space around them have the same normal form. *)
Lemma normalize_pad_case (l s r t : string) :
  Text.blank l = true -> Text.blank r = true ->
  Text.lower s = Text.lower t ->
  normalize (Str (l ++ s ++ r)%string) = normalize (Str t).
Proof.
  intros Hl Hr H. unfold normalize, str.
  rewrite strip_pad by trivial. now rewrite <- !strip_lower, H.
Qed.

Lemma normalize_tight (c : cell) :
  Text.tight_left (normalize c) = true /\ Text.tight_right (normalize c) = true.
Proof.
  destruct (normalize_spec (str c)) as [l [r [_ [_ [_ [Hl Hr]]]]]].
  now split.
Qed.

Lemma normalize_fixed (c : cell) : normalize (Str (normalize c)) = normalize c.
Proof.
  destruct (normalize_tight c) as [Hl Hr].
  unfold normalize at 1. simpl str. rewrite strip_tight by trivial.
  unfold normalize. apply TextFacts.lower_idem.
Qed.

(** X1. The normal form is a fixed point of [normalize]; it has no ASCII
    upper-case letter and no white space at either end. *)
Theorem normalize_idempotent (c : cell) :
  normalize (Str (normalize c)) = normalize c
  /\ no_upper (normalize c) = true
  /\ Text.tight_left (normalize c) = true
  /\ Text.tight_right (normalize c) = true.
Proof.
  destruct (normalize_tight c) as [Hl Hr].
  split; [apply normalize_fixed|].
  split; [apply lower_no_upper | now split].
Qed.

(** ** [parse_findings] *)

Lemma parse_loop_same_normal (t1 t2 : string) (rows : list symptom_row) :
  normalize (Str t1) = normalize (Str t2) ->
  forall found, parse_loop t1 rows found = parse_loop t2 rows found.
Proof.
  intros H. induction rows as [|row rest IH]; intros found; simpl; trivial.
  assert (Hrow : parse_row t1 row found = parse_row t2 row found)
    by (unfold parse_row; now rewrite H).
  rewrite Hrow. destruct (parse_row t2 row found); simpl; trivial.
Qed.

(** X2. On ASCII text, extraction does not see the case of the letters of
    the text, nor the white space around the text: two ASCII texts that
    only differ in these have the same normal form and give the same
    findings, or the same exception, with every dictionary. *)
Theorem case_and_padding_ignored (l s r t : string) :
  ascii_only l = true -> ascii_only s = true ->
  ascii_only r = true -> ascii_only t = true ->
  Text.blank l = true -> Text.blank r = true ->
  Text.lower s = Text.lower t ->
  normalize (Str (l ++ s ++ r)%string) = normalize (Str t)
  /\ forall df, parse_findings (l ++ s ++ r)%string df = parse_findings t df.
Proof.
  intros _ _ _ _ Hl Hr H.
  pose proof (normalize_pad_case l s r t Hl Hr H) as Hn.
  split; trivial. intros df. unfold parse_findings.
  now apply parse_loop_same_normal.
Qed.

Lemma case_and_padding_ignored_witness :
  normalize (Str "  Fever AND Cough ") = normalize (Str "fever and cough")
  /\ forall df,
       parse_findings "  Fever AND Cough " df = parse_findings "fever and cough" df.
Proof.
  apply (case_and_padding_ignored "  " "Fever AND Cough" " " "fever and cough");
    reflexivity.
Defined.

Lemma normalize_blank (ph : string) :
  Text.blank ph = true -> normalize (Str ph) = EmptyString.
Proof.
  intros H. unfold normalize, str, Text.strip.
  now rewrite lstrip_blank.
Qed.

(** X3. A dictionary row whose phrase is empty or consists of white space
    is reported for every text, the empty text included: its normal form is
    the empty string, which occurs in every string. *)
Theorem blank_phrase_always_reported (text ph : string) (row : symptom_row)
  (df : list symptom_row) :
  forallb has_labels df = true ->
  In row df -> phrase row = Some (Str ph) -> Text.blank ph = true ->
  exists found,
    parse_findings text df = Ok found /\ In (canonical row) found.
Proof.
  intros Hdf Hin Hph Hblank. eexists.
  split; [now apply parse_findings_labelled|].
  apply in_map, filter_In. split; trivial.
  unfold matches. rewrite Hph, normalize_blank by trivial. now destruct (normalize (Str text)).
Qed.

Lemma blank_phrase_always_reported_witness :
  exists found,
    parse_findings "" [entry "fever" "Fever"; entry "  " "Chills"] = Ok found
    /\ In (Str "Chills") found.
Proof.
  apply (blank_phrase_always_reported "" "  " (entry "  " "Chills")
           [entry "fever" "Fever"; entry "  " "Chills"]);
    try reflexivity.
  right. now left.
Defined.

Lemma occurs_in_trans (p q s : string) :
  occurs_in p q -> occurs_in q s -> occurs_in p s.
Proof.
  intros [a [b ->]] [c [d ->]].
  exists (c ++ a)%string, (b ++ d)%string.
  now rewrite !TextFacts.append_assoc.
Qed.

Lemma lstrip_keeps (x core y : string) :
  Text.tight_left core = true -> core <> EmptyString ->
  exists x', Text.lstrip (x ++ core ++ y)%string = (x' ++ core ++ y)%string.
Proof.
  intros Ht Hne. induction x as [|d x IH].
  - exists EmptyString. simpl. apply lstrip_tight.
    destruct core; [congruence | exact Ht].
  - simpl. destruct (Text.is_space d); [exact IH|].
    now exists (String d x).
Qed.

Lemma is_empty_append (a b : string) :
  Text.is_empty b = false -> Text.is_empty (a ++ b)%string = false.
Proof. now destruct a. Qed.

Lemma rstrip_keeps_core (core y : string) :
  Text.tight_right core = true -> core <> EmptyString ->
  exists y', Text.rstrip (core ++ y)%string = (core ++ y')%string.
Proof.
  induction core as [|c core IH]; [congruence|]. intros Ht _.
  destruct core as [|d core].
  - simpl in *. apply negb_true_iff in Ht. rewrite Ht. simpl.
    now exists (Text.rstrip y).
  - destruct IH as [y' Hy]; [exact Ht | discriminate|].
    exists y'.
    change (Text.rstrip (String c (String d core) ++ y)%string)
      with (let r := Text.rstrip (String d core ++ y)%string in
            if Text.is_space c && Text.is_empty r then EmptyString
            else String c r).
    rewrite Hy. simpl. now rewrite andb_false_r.
Qed.

Lemma rstrip_keeps (x core y : string) :
  Text.tight_right core = true -> core <> EmptyString ->
  exists y', Text.rstrip (x ++ core ++ y)%string = (x ++ core ++ y')%string.
Proof.
  intros Ht Hne. destruct (rstrip_keeps_core core y Ht Hne) as [y' Hy].
  exists y'. induction x as [|d x IH]; simpl; trivial.
  rewrite IH, is_empty_append, andb_false_r; trivial.
  destruct core; [congruence | reflexivity].
Qed.

(** What [strip] leaves of a text is still there when the text is put
    between two other texts. *)
Lemma strip_context (a t b : string) :
  occurs_in (Text.strip t) (Text.strip (a ++ t ++ b)%string).
Proof.
  destruct (TextFacts.strip_spec t) as [l [r [E [_ [_ [Hl Hr]]]]]].
  destruct (Text.strip t) as [|c core] eqn:Hcore.
  - exists EmptyString, (Text.strip (a ++ t ++ b)%string). reflexivity.
  - assert (Hne : String c core <> EmptyString) by discriminate.
    assert (Hshape : (a ++ t ++ b)%string
                     = ((a ++ l) ++ String c core ++ (r ++ b))%string).
    { rewrite E at 1. now rewrite !TextFacts.append_assoc. }
    rewrite Hshape. unfold Text.strip.
    destruct (lstrip_keeps (a ++ l)%string _ (r ++ b)%string Hl Hne)
      as [x' Hx].
    rewrite Hx.
    destruct (rstrip_keeps x' _ (r ++ b)%string Hr Hne) as [y' Hy].
    rewrite Hy. now exists x', y'.
Qed.

Lemma lower_occurs (p s : string) :
  occurs_in p s -> occurs_in (Text.lower p) (Text.lower s).
Proof.
  intros [a [b ->]]. exists (Text.lower a), (Text.lower b).
  now rewrite !TextFacts.lower_append.
Qed.

Lemma matches_context (a t b : string) (row : symptom_row) :
  matches t row = true -> matches (a ++ t ++ b)%string row = true.
Proof.
  unfold matches. destruct (phrase row) as [p|]; trivial.
  rewrite !TextFacts.contains_spec. intros H.
  apply occurs_in_trans with (1 := H). unfold normalize, str.
  apply lower_occurs, strip_context.
Qed.

(** X4. On ASCII text and an ASCII dictionary, adding text in front of a
    case description or after it never removes a finding: what is found in
    a text is found in every text that contains it. *)
Theorem more_text_keeps_findings (a t b : string) (df : list symptom_row) :
  ascii_only a = true -> ascii_only t = true -> ascii_only b = true ->
  forallb ascii_phrase df = true ->
  forallb has_labels df = true ->
  exists found found',
    parse_findings t df = Ok found
    /\ parse_findings (a ++ t ++ b)%string df = Ok found'
    /\ incl found found'.
Proof.
  intros _ _ _ _ H. eexists _, _.
  split; [now apply parse_findings_labelled|].
  split; [now apply parse_findings_labelled|].
  intros c Hc. apply in_map_iff in Hc as [row [<- Hrow]].
  apply filter_In in Hrow as [Hin Hm].
  apply in_map, filter_In. split; trivial. now apply matches_context.
Qed.

Lemma more_text_keeps_findings_witness :
  exists found found',
    parse_findings "fever" spec_dictionary = Ok found
    /\ parse_findings "3 days of fever, cough" spec_dictionary = Ok found'
    /\ incl found found'.
Proof.
  apply (more_text_keeps_findings "3 days of " "fever" ", cough" spec_dictionary);
    reflexivity.
Defined.

Lemma parse_row_prefix (text : string) (row : symptom_row) (found : list cell) :
  parse_row text row found
  = (f <- parse_row text row [] ;; Ok (found ++ f)).
Proof.
  unfold parse_row. destruct (getitem "phrase" (phrase row)) as [p|e]; simpl; trivial.
  destruct (Text.contains _ _); simpl; [|now rewrite app_nil_r].
  destruct (getitem "canonical_text" (canonical_text row)); simpl; trivial.
Qed.

Lemma parse_loop_prefix (text : string) (rows : list symptom_row) :
  forall found,
    parse_loop text rows found
    = (f <- parse_loop text rows [] ;; Ok (found ++ f)).
Proof.
  induction rows as [|row rest IH]; intros found; simpl.
  - now rewrite app_nil_r.
  - rewrite (parse_row_prefix text row found).
    destruct (parse_row text row []) as [f|e]; simpl; trivial.
    rewrite (IH (found ++ f)), (IH f).
    destruct (parse_loop text rest []) as [g|e]; simpl; trivial.
    now rewrite app_assoc.
Qed.

Lemma parse_loop_app (text : string) (d1 d2 : list symptom_row) :
  forall found,
    parse_loop text (d1 ++ d2) found
    = (f <- parse_loop text d1 found ;; parse_loop text d2 f).
Proof.
  induction d1 as [|row rest IH]; intros found; simpl; trivial.
  destruct (parse_row text row found); simpl; trivial.
Qed.

(** X5. Extraction works through the dictionary part by part: the findings
    for two dictionaries put one after the other are the findings for the
    first followed by the findings for the second, and an exception of
    either part is the exception of the whole (that of the first part, if
    both raise). *)
Theorem dictionary_concatenation (text : string) (d1 d2 : list symptom_row) :
  parse_findings text (d1 ++ d2)
  = (f1 <- parse_findings text d1 ;;
     f2 <- parse_findings text d2 ;;
     Ok (f1 ++ f2)).
Proof.
  unfold parse_findings. rewrite parse_loop_app.
  destruct (parse_loop text d1 []) as [f1|e]; simpl; trivial.
  apply parse_loop_prefix.
Qed.

Lemma parse_loop_lacks_canonical (text : string) (rows : list symptom_row) :
  forallb lacks_canonical rows = true ->
  forall found,
    parse_loop text rows found
    = if existsb (matches text) rows then Raise (KeyError "canonical_text")
      else Ok found.
Proof.
  induction rows as [|row rest IH]; intros H found; simpl; trivial.
  simpl in H. apply andb_true_iff in H as [Hrow Hrest].
  unfold lacks_canonical in Hrow. unfold parse_row.
  destruct (phrase row) as [p|] eqn:Hp; [|discriminate].
  destruct (canonical_text row) eqn:Hc; [discriminate|].
  assert (Hm : matches text row
               = Text.contains (normalize p) (normalize (Str text)))
    by (unfold matches; now rewrite Hp).
  rewrite Hm. simpl.
  destruct (Text.contains _ _); simpl; trivial. now apply IH.
Qed.

(** X6. The label [canonical_text] is only read for a row whose phrase
    occurs in the text.  With a dictionary that has phrases but no
    [canonical_text] label, extraction returns the empty list as long as
    no phrase occurs, and raises [KeyError] as soon as one does. *)
Theorem missing_canonical_raises_on_match (text : string)
  (df : list symptom_row) :
  forallb lacks_canonical df = true ->
  parse_findings text df
  = if existsb (matches text) df then Raise (KeyError "canonical_text")
    else Ok [].
Proof. intros H. now apply parse_loop_lacks_canonical. Qed.

Lemma missing_canonical_raises_on_match_witness :
  parse_findings "headache" [mk_symptom (Some (Str "fever")) None] = Ok []
  /\ parse_findings "fever" [mk_symptom (Some (Str "fever")) None]
     = Raise (KeyError "canonical_text").
Proof.
  split.
  - apply (missing_canonical_raises_on_match "headache"
             [mk_symptom (Some (Str "fever")) None]). reflexivity.
  - apply (missing_canonical_raises_on_match "fever"
             [mk_symptom (Some (Str "fever")) None]). reflexivity.
Defined.

(** ** [softmax] *)

Lemma Rmax_shift (a b c : R) : Rmax (a + c) (b + c) = (Rmax a b + c)%R.
Proof.
  unfold Rmax. destruct (Rle_dec (a + c) (b + c)), (Rle_dec a b); lra.
Qed.

Lemma fold_left_Rmax_shift (l : list R) (a c : R) :
  fold_left Rmax (map (fun v => v + c)%R l) (a + c)%R
  = (fold_left Rmax l a + c)%R.
Proof.
  revert a. induction l as [|b l IH]; intros a; simpl; trivial.
  now rewrite Rmax_shift, IH.
Qed.

(** The maximum that [np.max] returns is an element of the array and
    bounds every element. *)
Lemma fold_left_Rmax_spec (l : list R) (a : R) :
  In (fold_left Rmax l a) (a :: l)
  /\ Forall (fun v => (v <= fold_left Rmax l a)%R) (a :: l).
Proof.
  revert a. induction l as [|b l IH]; intros a; simpl fold_left.
  - split; [now left | constructor; [lra | constructor]].
  - destruct (IH (Rmax a b)) as [Hin Hall].
    inversion Hall as [|? ? Hm Hl]; subst. split.
    + destruct Hin as [Hin|Hin]; [|right; now right].
      rewrite <- Hin. apply Rmax_case_strong; intros _; [now left | right; now left].
    + pose proof (Rmax_l a b). pose proof (Rmax_r a b).
      constructor; [lra|]. constructor; [lra | exact Hl].
Qed.

Lemma rsum_ge_member (l : list R) (v : R) :
  Forall (fun u => (0 < u)%R) l -> In v l -> (v <= rsum l)%R.
Proof.
  induction 1 as [|u l Hu Hl IH]; simpl; [contradiction|].
  assert (0 <= rsum l)%R.
  { clear IH. induction Hl; simpl; lra. }
  intros [->|Hin]; [lra|]. specialize (IH Hin). lra.
Qed.

Lemma exps_positive (l : list R) (m : R) :
  Forall (fun u => (0 < u)%R) (map (fun v => exp (v - m)) l).
Proof.
  apply Forall_forall. intros u Hu. apply in_map_iff in Hu as [v [<- _]].
  apply exp_pos.
Qed.

(** The shape of the result of [softmax] on a non-empty array. *)
Lemma softmax_shape (x : list R) :
  x <> [] ->
  exists m s,
    In m x /\ Forall (fun v => (v <= m)%R) x
    /\ s = rsum (map (fun v => exp (v - m)) x) /\ (1 <= s)%R
    /\ softmax x = Ok (map (fun v => (exp (v - m) / s)%R) x).
Proof.
  destruct x as [|a l]; [congruence|]. intros _.
  destruct (fold_left_Rmax_spec l a) as [Hin Hall].
  exists (fold_left Rmax l a), (rsum (map (fun v => exp (v - fold_left Rmax l a)) (a :: l))).
  repeat split; trivial.
  - replace 1%R with (exp (fold_left Rmax l a - fold_left Rmax l a))
      by (rewrite Rminus_diag; apply exp_0).
    apply rsum_ge_member; [apply exps_positive|].
    now apply (in_map (fun v => exp (v - fold_left Rmax l a))).
  - unfold softmax. simpl np_max. rewrite bind_Ok.
    cbv zeta. now rewrite np_sum_rsum, map_map.
Qed.

(** X7. On an empty array [softmax] raises the [ValueError] of [np.max].
    On any other array it returns as many numbers as it was given, each
    greater than 0 and at most 1, and their sum is 1. *)
Theorem softmax_distribution (x : list R) :
  match x with
  | [] => exists msg, softmax x = Raise (ValueError msg)
  | _ :: _ =>
      exists p, softmax x = Ok p
                /\ List.length p = List.length x
                /\ Forall (fun v => (0 < v <= 1)%R) p
                /\ rsum p = 1%R
  end.
Proof.
  destruct x as [|a l]; [now eexists|].
  destruct (softmax_shape (a :: l)) as [m [s [_ [_ [Hs [Hs1 Hp]]]]]];
    [discriminate|].
  eexists. split; [exact Hp|]. split; [apply length_map|]. split.
  - apply Forall_forall. intros v Hv. apply in_map_iff in Hv as [u [<- Hu]].
    pose proof (exp_pos (u - m)) as Hpos.
    assert (Hle : (exp (u - m) <= s)%R).
    { rewrite Hs. apply rsum_ge_member; [apply exps_positive|].
      now apply (in_map (fun v => exp (v - m))). }
    split.
    + apply Rdiv_lt_0_compat; lra.
    + unfold Rdiv. apply Rmult_le_reg_r with (r := s); [lra|].
      rewrite Rmult_assoc, Rinv_l by lra. lra.
  - rewrite <- (map_map (fun v => exp (v - m)) (fun e => (e / s)%R)).
    rewrite rsum_div, <- Hs. field. lra.
Qed.

(** X8. [softmax] only sees the differences between the scores: adding
    the same number to every score does not change the result. *)
Theorem softmax_shift (x : list R) (c : R) :
  softmax (map (fun v => v + c)%R x) = softmax x.
Proof.
  destruct x as [|a l]; [reflexivity|].
  unfold softmax. simpl map. simpl np_max.
  rewrite fold_left_Rmax_shift, !bind_Ok. cbv zeta.
  set (m := fold_left Rmax l a).
  assert (He : map (fun v => exp (v - (m + c)))
                   ((a + c)%R :: map (fun v => (v + c)%R) l)
               = map (fun v => exp (v - m)) (a :: l)).
  { change ((a + c)%R :: map (fun v => (v + c)%R) l)
      with (map (fun v => (v + c)%R) (a :: l)).
    rewrite map_map. apply map_ext. intros v. f_equal. lra. }
  simpl in He. injection He as H1 H2. now rewrite H1, H2.
Qed.

Lemma exp_monotone (u v : R) : (u <= v)%R -> (exp u <= exp v)%R.
Proof.
  intros [H| ->]; [left; now apply exp_increasing | lra].
Qed.

(** X9. In exact real arithmetic, [softmax] keeps the order of the
    scores: of two entries of the array the one with the greater score gets
    the greater probability, and equal scores get equal probabilities. *)
Theorem softmax_monotone (x : list R) :
  x <> [] ->
  exists p,
    softmax x = Ok p
    /\ forall i j, i < List.length x -> j < List.length x ->
         ((nth i x 0 <= nth j x 0)%R -> (nth i p 0 <= nth j p 0)%R)
         /\ ((nth i x 0 < nth j x 0)%R -> (nth i p 0 < nth j p 0)%R).
Proof.
  intros Hne.
  destruct (softmax_shape x Hne) as [m [s [_ [_ [_ [Hs1 Hp]]]]]].
  eexists. split; [exact Hp|]. intros i j Hi Hj.
  set (f := fun v => (exp (v - m) / s)%R).
  assert (Hnth : forall k, k < List.length x ->
                   nth k (map f x) 0%R = f (nth k x 0%R)).
  { intros k Hk. rewrite <- (map_nth f).
    apply nth_indep. now rewrite length_map. }
  rewrite !Hnth by trivial. unfold f. split; intros H.
  - apply Rmult_le_compat_r; [left; apply Rinv_0_lt_compat; lra|].
    apply exp_monotone. lra.
  - apply Rmult_lt_compat_r; [apply Rinv_0_lt_compat; lra|].
    apply exp_increasing. lra.
Qed.

Lemma softmax_monotone_witness :
  exists p,
    softmax [1; 3; 2]%R = Ok p
    /\ forall i j, i < 3 -> j < 3 ->
         ((nth i [1; 3; 2] 0 <= nth j [1; 3; 2] 0)%R
          -> (nth i p 0 <= nth j p 0)%R)
         /\ ((nth i [1; 3; 2] 0 < nth j [1; 3; 2] 0)%R
             -> (nth i p 0 < nth j p 0)%R).
Proof.
  apply (softmax_monotone [1; 3; 2]%R). discriminate.
Defined.

(** ** [score_differential] *)

Lemma dict_get_set (d k : string) (v : R) (scores : dict) (default : R) :
  dict_get d (dict_set k v scores) default
  = if String.eqb d k then v else dict_get d scores default.
Proof.
  induction scores as [|[k' v'] rest IH]; simpl.
  - now destruct (String.eqb d k).
  - destruct (String.eqb k k') eqn:Ek; simpl.
    + apply String.eqb_eq in Ek. subst k'. now destruct (String.eqb d k).
    + rewrite IH. destruct (String.eqb d k') eqn:Ed; trivial.
      apply String.eqb_eq in Ed. subst k'.
      now rewrite String.eqb_sym, Ek.
Qed.

Lemma accumulate_get (found : list cell) (rows : list disease_row) (d : string) :
  forall scores,
    dict_get d (accumulate found rows scores) 0
    = (dict_get d scores 0 + raw_score found rows d)%R.
Proof.
  unfold raw_score.
  induction rows as [|row rest IH]; intros scores; simpl; [lra|].
  rewrite IH. destruct (contributes found row); simpl; trivial.
  rewrite dict_get_set, (String.eqb_sym (disease_name row) d).
  destruct (String.eqb d (disease_name row)) eqn:E; simpl; [|lra].
  apply String.eqb_eq in E. subst d. lra.
Qed.

Lemma contributors_rows (found : list cell) (df : list disease_row) (d : string) :
  forallb usable df = true ->
  In d (contributors found df) <->
  exists row, In row df /\ contributes found row = true
              /\ disease row = Some d.
Proof.
  intros H. unfold contributors. rewrite in_map_iff. split.
  - intros [row [Hd Hrow]]. apply filter_In in Hrow as [Hin Hc].
    exists row. repeat split; trivial.
    rewrite forallb_forall in H. specialize (H row Hin).
    unfold usable in H. unfold disease_name in Hd.
    destruct (disease row); [simpl in Hd; now subst | discriminate].
  - intros [row [Hin [Hc Hd]]]. exists row. split.
    + unfold disease_name. now rewrite Hd.
    + apply filter_In. now split.
Qed.

(** X10. In exact real arithmetic and with weights that are real numbers,
    the raw score that the loop keeps for a disease is the sum of the
    weights (1 where the row has none) of the rows of that disease whose
    normalised finding is among the findings; the diseases that get an
    entry are those with at least one such row. *)
Theorem raw_score_is_sum (found : list cell) (df : list disease_row) :
  forallb usable df = true ->
  exists scores,
    score_loop found df [] = Ok scores
    /\ forall d,
         dict_get d scores 0 = raw_score found df d
         /\ (In d (keys scores) <->
             exists row, In row df /\ contributes found row = true
                         /\ disease row = Some d).
Proof.
  intros H. exists (accumulate found df []).
  split; [now apply score_loop_usable|]. intros d. split.
  - rewrite accumulate_get. simpl. lra.
  - rewrite keys_usable, <- (contributors_rows found df d H).
    apply first_seen_order.
Qed.

Lemma raw_score_is_sum_witness :
  exists scores,
    score_loop [Str "fever"; Str "cough"] spec_evidence [] = Ok scores
    /\ forall d,
         dict_get d scores 0 = raw_score [Str "fever"; Str "cough"] spec_evidence d
         /\ (In d (keys scores) <->
             exists row, In row spec_evidence
                         /\ contributes [Str "fever"; Str "cough"] row = true
                         /\ disease row = Some d).
Proof.
  apply (raw_score_is_sum [Str "fever"; Str "cough"] spec_evidence).
  reflexivity.
Defined.

Lemma candidates_of_map (f : R -> R) (scores : dict) :
  candidates_of (keys scores) (map f (values scores))
  = map (fun kv => mk_candidate (fst kv) (round (f (snd kv) * 100) 1)) scores.
Proof.
  unfold candidates_of, keys, values.
  induction scores as [|[k v] rest IH]; simpl; trivial. now rewrite IH.
Qed.

(** The untruncated list on a usable table with at least one
    contribution: the entries of [scores], each with its percentage,
    sorted. *)
Lemma untruncated_shape (found : list cell) (labs : list lab_row)
  (df : list disease_row) :
  forallb usable df = true ->
  existsb (contributes found) df = true ->
  let scores := accumulate found df [] in
  exists m s,
    In m (values scores) /\ Forall (fun v => (v <= m)%R) (values scores)
    /\ (1 <= s)%R
    /\ score_untruncated found labs df
       = Ok (sorted_desc probability
               (map (fun kv => mk_candidate (fst kv) (percentage m s (snd kv)))
                    scores)).
Proof.
  intros H Hsome scores.
  pose proof (accumulate_nonempty found df Hsome) as Hne. fold scores in Hne.
  assert (Hv : values scores <> []).
  { intros Hnil. apply Hne. apply length_zero_iff_nil.
    now rewrite <- values_length, Hnil. }
  destruct (softmax_shape (values scores) Hv) as [m [s [Hm [Hall [_ [Hs Hp]]]]]].
  exists m, s. repeat split; trivial.
  unfold score_untruncated. rewrite score_loop_usable by assumption.
  fold scores. rewrite bind_Ok.
  destruct scores as [|kv rest] eqn:E; [congruence|]. rewrite <- E in *.
  unfold ranked. rewrite Hp, bind_Ok.
  change (map (fun np => mk_candidate (fst np) (round (snd np * 100) 1))
              (combine (keys scores)
                 (map (fun v => (exp (v - m) / s)%R) (values scores))))
    with (candidates_of (keys scores)
            (map (fun v => (exp (v - m) / s)%R) (values scores))).
  now rewrite candidates_of_map.
Qed.

Lemma score_differential_truncates (found : list cell) (labs : list lab_row)
  (df : list disease_row) :
  score_differential found labs df
  = (full <- score_untruncated found labs df ;; Ok (firstn MAX_TOP full)).
Proof.
  unfold score_differential, score_untruncated.
  destruct (score_loop found df []) as [[|kv rest]|e]; reflexivity.
Qed.

Lemma dict_get_In (k : string) (v : R) (scores : dict) :
  NoDup (keys scores) -> In (k, v) scores -> dict_get k scores 0 = v.
Proof.
  induction scores as [|[k' v'] rest IH]; simpl; [contradiction|].
  intros Hnd Hin. inversion Hnd as [|? ? Hk Hrest]; subst.
  destruct Hin as [Heq|Hin].
  - injection Heq as -> ->. now rewrite String.eqb_refl.
  - destruct (String.eqb k k') eqn:E; [|now apply IH].
    apply String.eqb_eq in E. subst k'. exfalso. apply Hk.
    change k with (fst (k, v)). now apply in_map.
Qed.

Lemma keys_NoDup (found : list cell) (df : list disease_row) :
  NoDup (keys (accumulate found df [])).
Proof. rewrite keys_usable. apply first_seen_order. Qed.

Lemma accumulate_empty (found : list cell) (df : list disease_row) :
  existsb (contributes found) df = false -> accumulate found df [] = [].
Proof.
  intros H. apply length_zero_iff_nil.
  rewrite <- keys_length, keys_usable, (no_contribution found df H).
  reflexivity.
Qed.

Lemma StronglySorted_True {A : Type} (l : list A) :
  StronglySorted (fun _ _ => True) l.
Proof.
  induction l; constructor; trivial. now apply Forall_forall.
Qed.

Lemma sorted_desc_sorted {A : Type} (key : A -> R) (l : list A) :
  StronglySorted (fun a b => (key b <= key a)%R) (sorted_desc key l).
Proof.
  apply StronglySorted_weaken
    with (Rel := key_then_before key (fun _ _ => True)).
  - intros a b _ _. apply key_then_before_ge.
  - apply sorted_desc_stable, StronglySorted_True.
Qed.

(** Everything the further properties need to know of a run on a usable
    table. *)
Lemma scoring_master (found : list cell) (labs : list lab_row)
  (df : list disease_row) :
  forallb usable df = true ->
  exists full m s,
    score_untruncated found labs df = Ok full
    /\ score_differential found labs df = Ok (firstn MAX_TOP full)
    /\ Permutation (map name full) (keys (accumulate found df []))
    /\ StronglySorted (fun a b => (probability b <= probability a)%R) full
    /\ (1 <= s)%R
    /\ forall c, In c full ->
         (raw_score found df (name c) <= m)%R
         /\ probability c = percentage m s (raw_score found df (name c)).
Proof.
  intros H. destruct (existsb (contributes found) df) eqn:Hsome.
  - destruct (untruncated_shape found labs df H Hsome)
      as [m [s [Hm [Hall [Hs Hfull]]]]].
    set (scores := accumulate found df []) in *.
    set (g := fun kv : string * R =>
                mk_candidate (fst kv) (percentage m s (snd kv))) in *.
    exists (sorted_desc probability (map g scores)), m, s.
    split; [exact Hfull|]. split.
    { now rewrite score_differential_truncates, Hfull. }
    split.
    { rewrite (Permutation_map name (sorted_desc_perm probability _)).
      rewrite map_map. unfold keys. reflexivity. }
    split; [apply sorted_desc_sorted|]. split; [exact Hs|].
    intros c Hc.
    apply (Permutation_in _ (sorted_desc_perm probability _)) in Hc.
    apply in_map_iff in Hc as [[k v] [<- Hkv]]. simpl.
    assert (Hraw : raw_score found df k = v).
    { rewrite <- (dict_get_In k v scores (keys_NoDup found df) Hkv).
      unfold scores. rewrite accumulate_get. simpl. lra. }
    rewrite Hraw. split; trivial.
    rewrite Forall_forall in Hall. apply Hall.
    change v with (snd (k, v)). now apply in_map.
  - exists [], 0%R, 1%R.
    assert (Hfull : score_untruncated found labs df = Ok []).
    { unfold score_untruncated. rewrite score_loop_usable by assumption.
      now rewrite accumulate_empty. }
    split; [exact Hfull|]. split.
    { now rewrite score_differential_truncates, Hfull. }
    rewrite accumulate_empty by assumption.
    repeat split; try constructor; try lra; contradiction.
Qed.

Lemma NoDup_firstn {A : Type} (n : nat) (l : list A) :
  NoDup l -> NoDup (firstn n l).
Proof.
  intros H. rewrite <- (firstn_skipn n l) in H.
  now apply NoDup_app_remove_r in H.
Qed.

Lemma firstn_In {A : Type} (n : nat) (l : list A) (x : A) :
  In x (firstn n l) -> In x l.
Proof.
  intros H. rewrite <- (firstn_skipn n l). apply in_or_app. now left.
Qed.

(** X11. No disease is listed twice, and every disease that is listed has
    at least one evidence row whose normalised finding is among the
    findings. *)
Theorem candidates_distinct_and_supported (found : list cell)
  (labs : list lab_row) (df : list disease_row) :
  forallb usable df = true ->
  exists res,
    score_differential found labs df = Ok res
    /\ NoDup (map name res)
    /\ forall c, In c res ->
         exists row, In row df /\ contributes found row = true
                     /\ disease row = Some (name c).
Proof.
  intros H.
  destruct (scoring_master found labs df H)
    as [full [m [s [_ [Hres [Hperm _]]]]]].
  eexists. split; [exact Hres|]. split.
  - rewrite <- firstn_map. apply NoDup_firstn.
    apply (Permutation_NoDup (Permutation_sym Hperm)), keys_NoDup.
  - intros c Hc. apply firstn_In in Hc.
    apply (contributors_rows found df (name c) H).
    apply first_seen_order. rewrite <- keys_usable.
    apply (Permutation_in _ Hperm). now apply in_map.
Qed.

Lemma candidates_distinct_and_supported_witness :
  exists res,
    score_differential [Str "fever"; Str "cough"] [] spec_evidence = Ok res
    /\ NoDup (map name res)
    /\ forall c, In c res ->
         exists row, In row spec_evidence
                     /\ contributes [Str "fever"; Str "cough"] row = true
                     /\ disease row = Some (name c).
Proof.
  apply (candidates_distinct_and_supported
           [Str "fever"; Str "cough"] [] spec_evidence).
  reflexivity.
Defined.

Lemma rint_between (x : R) (a b : Z) :
  (IZR a <= x <= IZR b)%R -> (a <= rint x <= b)%Z.
Proof.
  intros [Ha Hb]. pose proof (rint_near x) as H.
  split.
  - assert (a < rint x + 1)%Z by (apply lt_IZR; rewrite plus_IZR; lra). lia.
  - assert (rint x < b + 1)%Z by (apply lt_IZR; rewrite plus_IZR; lra). lia.
Qed.

Lemma rint_monotone (x y : R) : (x <= y)%R -> (rint x <= rint y)%Z.
Proof.
  intros Hxy. destruct (Z_le_gt_dec (rint x) (rint y)) as [Hle|Hgt]; trivial.
  exfalso.
  assert (Hz : (rint y + 1 <= rint x)%Z) by lia.
  apply IZR_le in Hz. rewrite plus_IZR in Hz.
  pose proof (rint_near x) as Hx. pose proof (rint_near y) as Hy.
  assert (Heq : x = y) by lra. subst y. lia.
Qed.

Lemma share_bounds (m s v : R) :
  (v <= m)%R -> (1 <= s)%R -> (0 < exp (v - m) / s <= 1)%R.
Proof.
  intros Hv Hs. pose proof (exp_pos (v - m)) as Hpos.
  assert (Hle : (exp (v - m) <= 1)%R).
  { rewrite <- exp_0. apply exp_monotone. lra. }
  split.
  - apply Rdiv_lt_0_compat; lra.
  - unfold Rdiv. apply Rmult_le_reg_r with (r := s); [lra|].
    rewrite Rmult_assoc, Rinv_l by lra. lra.
Qed.

Lemma percentage_range (m s v : R) :
  (v <= m)%R -> (1 <= s)%R ->
  (0 <= percentage m s v <= 100)%R
  /\ exists k : Z, percentage m s v = (IZR k / 10)%R.
Proof.
  intros Hv Hs. destruct (share_bounds m s v Hv Hs) as [Hlo Hhi].
  unfold percentage, round. cbn [pow]. rewrite Rmult_1_r.
  destruct (rint_between (exp (v - m) / s * 100 * 10) 0 1000) as [Ha Hb];
    [split; lra|].
  apply IZR_le in Ha, Hb. split; [lra | now eexists].
Qed.

Lemma percentage_monotone (m s u v : R) :
  (1 <= s)%R -> (u <= v)%R -> (percentage m s u <= percentage m s v)%R.
Proof.
  intros Hs Huv. unfold percentage, round. cbn [pow]. rewrite !Rmult_1_r.
  assert (He : (exp (u - m) <= exp (v - m))%R) by (apply exp_monotone; lra).
  assert (Hq : (exp (u - m) / s <= exp (v - m) / s)%R).
  { apply Rmult_le_compat_r; [left; apply Rinv_0_lt_compat; lra | exact He]. }
  assert (Hr : (rint (exp (u - m) / s * 100 * 10)
                <= rint (exp (v - m) / s * 100 * 10))%Z)
    by (apply rint_monotone; lra).
  apply IZR_le in Hr. lra.
Qed.

(** X12. In exact real arithmetic and with weights that are real numbers,
    every percentage in the result is between 0 and 100 and is a whole
    number of tenths. *)
Theorem percentages_in_range (found : list cell) (labs : list lab_row)
  (df : list disease_row) :
  forallb usable df = true ->
  exists res,
    score_differential found labs df = Ok res
    /\ Forall (fun c => (0 <= probability c <= 100)%R
                        /\ exists k : Z, probability c = (IZR k / 10)%R) res.
Proof.
  intros H.
  destruct (scoring_master found labs df H)
    as [full [m [s [_ [Hres [_ [_ [Hs Hc]]]]]]]].
  eexists. split; [exact Hres|].
  apply Forall_forall. intros c Hin. apply firstn_In in Hin.
  destruct (Hc c Hin) as [Hle ->]. now apply percentage_range.
Qed.

Lemma percentages_in_range_witness :
  exists res,
    score_differential [Str "fever"; Str "cough"] [] spec_evidence = Ok res
    /\ Forall (fun c => (0 <= probability c <= 100)%R
                        /\ exists k : Z, probability c = (IZR k / 10)%R) res.
Proof.
  apply (percentages_in_range [Str "fever"; Str "cough"] [] spec_evidence).
  reflexivity.
Defined.

(** X13. In exact real arithmetic and with weights that are real numbers,
    the percentages follow the raw scores: of two candidates the one with
    the smaller raw score never has the greater percentage. *)
Theorem percentage_follows_raw_score (found : list cell)
  (labs : list lab_row) (df : list disease_row) :
  forallb usable df = true ->
  exists full,
    score_untruncated found labs df = Ok full
    /\ score_differential found labs df = Ok (firstn MAX_TOP full)
    /\ forall a b, In a full -> In b full ->
         (raw_score found df (name a) <= raw_score found df (name b))%R ->
         (probability a <= probability b)%R.
Proof.
  intros H.
  destruct (scoring_master found labs df H)
    as [full [m [s [Hfull [Hres [_ [_ [Hs Hc]]]]]]]].
  eexists. split; [exact Hfull|]. split; [exact Hres|].
  intros a b Ha Hb Hraw.
  destruct (Hc a Ha) as [_ ->]. destruct (Hc b Hb) as [_ ->].
  now apply percentage_monotone.
Qed.

Lemma percentage_follows_raw_score_witness :
  exists full,
    score_untruncated [Str "fever"; Str "cough"] [] spec_evidence = Ok full
    /\ score_differential [Str "fever"; Str "cough"] [] spec_evidence
       = Ok (firstn MAX_TOP full)
    /\ forall a b, In a full -> In b full ->
         (raw_score [Str "fever"; Str "cough"] spec_evidence (name a)
          <= raw_score [Str "fever"; Str "cough"] spec_evidence (name b))%R ->
         (probability a <= probability b)%R.
Proof.
  apply (percentage_follows_raw_score [Str "fever"; Str "cough"] [] spec_evidence).
  reflexivity.
Defined.

Lemma exp_INR (n : nat) : (2 ^ n <= exp (INR n))%R.
Proof.
  induction n as [|n IH].
  - simpl. rewrite exp_0. lra.
  - rewrite S_INR, exp_plus. simpl pow.
    assert (H1 : (2 < exp 1)%R).
    { pose proof (exp_ineq1 1). lra. }
    assert (H2 : (0 < 2 ^ n)%R) by (apply pow_lt; lra).
    nra.
Qed.

Lemma exp_11 : (2048 < exp 11)%R.
Proof.
  pose proof (exp_INR 10) as H10.
  replace (INR 10) with 10%R in H10 by (simpl; lra).
  replace 11%R with (10 + 1)%R by lra. rewrite exp_plus.
  assert (H1 : (2 < exp 1)%R).
  { pose proof (exp_ineq1 1). lra. }
  replace (2 ^ 10)%R with 1024%R in H10 by (simpl; lra).
  nra.
Qed.

Lemma percentage_zero (m s v : R) :
  (1 <= s)%R -> (v + 11 <= m)%R -> percentage m s v = 0%R.
Proof.
  intros Hs Hv. unfold percentage, round. cbn [pow]. rewrite Rmult_1_r.
  pose proof (exp_pos (v - m)) as Hpos.
  assert (He : (exp (v - m) * 2048 < 1)%R).
  { assert (Hm : (exp (v - m) <= exp (- 11))%R) by (apply exp_monotone; lra).
    assert (Hinv : (exp (- 11) * exp 11 = 1)%R).
    { rewrite <- exp_plus. replace (- 11 + 11)%R with 0%R by lra. apply exp_0. }
    pose proof exp_11. pose proof (exp_pos (- 11)). nra. }
  assert (Hq : (0 < exp (v - m) / s <= exp (v - m))%R).
  { split.
    - apply Rdiv_lt_0_compat; lra.
    - unfold Rdiv. apply Rmult_le_reg_r with (r := s); [lra|].
      rewrite Rmult_assoc, Rinv_l by lra. nra. }
  rewrite (rint_eval _ 0); [lra|]. split; lra.
Qed.

(** X14. In exact real arithmetic and with weights that are real numbers,
    a candidate can be listed with 0.0: when its raw score is 11 or more
    below the raw score of another candidate, its percentage is zero. *)
Theorem far_behind_is_zero (found : list cell) (labs : list lab_row)
  (df : list disease_row) :
  forallb usable df = true ->
  exists full,
    score_untruncated found labs df = Ok full
    /\ score_differential found labs df = Ok (firstn MAX_TOP full)
    /\ forall a b, In a full -> In b full ->
         (raw_score found df (name a) + 11 <= raw_score found df (name b))%R ->
         probability a = 0%R.
Proof.
  intros H.
  destruct (scoring_master found labs df H)
    as [full [m [s [Hfull [Hres [_ [_ [Hs Hc]]]]]]]].
  eexists. split; [exact Hfull|]. split; [exact Hres|].
  intros a b Ha Hb Hraw.
  destruct (Hc a Ha) as [_ ->]. destruct (Hc b Hb) as [Hb' _].
  apply percentage_zero; trivial. lra.
Qed.

Lemma far_behind_is_zero_witness :
  exists full,
    score_untruncated [Str "fever"] []
      [evidence "Flu" "fever" 12; evidence "Cold" "fever" 1] = Ok full
    /\ score_differential [Str "fever"] []
         [evidence "Flu" "fever" 12; evidence "Cold" "fever" 1]
       = Ok (firstn MAX_TOP full)
    /\ forall a b, In a full -> In b full ->
         (raw_score [Str "fever"]
            [evidence "Flu" "fever" 12; evidence "Cold" "fever" 1] (name a) + 11
          <= raw_score [Str "fever"]
               [evidence "Flu" "fever" 12; evidence "Cold" "fever" 1] (name b))%R ->
         probability a = 0%R.
Proof.
  apply (far_behind_is_zero [Str "fever"] []
           [evidence "Flu" "fever" 12; evidence "Cold" "fever" 1]).
  reflexivity.
Defined.

Lemma keys_single (l : list string) (d : string) :
  l <> [] -> (forall x, In x l -> x = d) -> fold_left add_key l [] = [d].
Proof.
  intros Hne Hall.
  destruct (first_seen_order l) as [Hnd [Hin _]].
  set (ks := fold_left add_key l []) in *.
  assert (Hks : forall x, In x ks -> x = d) by (intros x Hx; now apply Hall, Hin).
  destruct ks as [|x [|y ks]].
  - destruct l as [|x l]; [congruence|].
    destruct (proj2 (Hin x)). now left.
  - f_equal. apply Hks. now left.
  - exfalso. inversion Hnd as [|? ? Hx _]; subst. apply Hx.
    rewrite (Hks x) by now left. left. apply Hks. right. now left.
Qed.

Lemma single_disease_result (found : list cell) (labs : list lab_row)
  (df : list disease_row) (d : string) :
  forallb usable df = true ->
  existsb (contributes found) df = true ->
  (forall row, In row df -> contributes found row = true ->
               disease row = Some d) ->
  score_differential found labs df = Ok [mk_candidate d 100].
Proof.
  intros H Hsome Hone.
  assert (Hkeys : keys (accumulate found df []) = [d]).
  { rewrite keys_usable. apply keys_single.
    - now apply some_contribution.
    - intros x Hx. apply (contributors_rows found df x H) in Hx.
      destruct Hx as [row [Hin [Hc Hd]]].
      specialize (Hone row Hin Hc). congruence. }
  unfold score_differential. rewrite score_loop_usable by assumption.
  rewrite bind_Ok.
  destruct (accumulate found df []) as [|[k v] [|kv rest]]; try discriminate.
  injection Hkeys as ->. unfold ranked.
  change (values [(d, v)]) with (repeat v 1).
  rewrite softmax_uniform, !bind_Ok.
  change (map _ (combine _ _))
    with [mk_candidate d (round (1 / INR 1 * 100) 1)].
  now rewrite round_whole.
Qed.

(** X15. In exact real arithmetic: when all contributing rows belong to
    one disease, the result is that disease at 100.0, whatever real numbers
    its weights are (a single weak finding, a weight of zero, a negative
    sum). *)
Theorem lone_candidate_is_100 (found : list cell) (labs : list lab_row)
  (df : list disease_row) (d : string) :
  forallb usable df = true ->
  existsb (contributes found) df = true ->
  (forall row, In row df -> contributes found row = true ->
               disease row = Some d) ->
  score_differential found labs df = Ok [mk_candidate d 100].
Proof. apply single_disease_result. Qed.

Lemma lone_candidate_is_100_witness :
  score_differential [Str "fever"] [] [evidence "Flu" "fever" 0; evidence "Flu" "cough" 2]
  = Ok [mk_candidate "Flu" 100].
Proof.
  apply (lone_candidate_is_100 [Str "fever"] []
           [evidence "Flu" "fever" 0; evidence "Flu" "cough" 2] "Flu");
    try reflexivity.
  intros row [<-|[<-|[]]] Hc; reflexivity.
Defined.

Lemma StronglySorted_cross {A : Type} (Rel : A -> A -> Prop) (l1 l2 : list A) :
  StronglySorted Rel (l1 ++ l2) ->
  forall a b, In a l1 -> In b l2 -> Rel a b.
Proof.
  induction l1 as [|x l1 IH]; simpl; intros Hs a b Ha Hb; [contradiction|].
  inversion Hs as [|? ? Hs' Hx]; subst. destruct Ha as [->|Ha].
  - rewrite Forall_forall in Hx. apply Hx, in_or_app. now right.
  - now apply IH.
Qed.

(** X16. The cut at [MAX_TOP] keeps the best: the result is the first
    five entries of the ranked list, no candidate that is left out has a
    greater percentage than one that is kept, and nothing is left out when
    at most five diseases received a contribution. *)
Theorem cut_keeps_the_best (found : list cell) (labs : list lab_row)
  (df : list disease_row) :
  forallb usable df = true ->
  exists full,
    score_untruncated found labs df = Ok full
    /\ score_differential found labs df = Ok (firstn MAX_TOP full)
    /\ (forall a b, In a (firstn MAX_TOP full) -> In b (skipn MAX_TOP full) ->
          (probability b <= probability a)%R)
    /\ (contributing_diseases found df <= MAX_TOP ->
        score_differential found labs df = Ok full).
Proof.
  intros H.
  destruct (scoring_master found labs df H)
    as [full [m [s [Hfull [Hres [Hperm [Hsorted _]]]]]]].
  exists full. split; [exact Hfull|]. split; [exact Hres|]. split.
  - apply StronglySorted_cross. now rewrite firstn_skipn.
  - intros Hn. rewrite Hres. f_equal. apply firstn_all2.
    rewrite <- (length_map name), (Permutation_length Hperm).
    now rewrite keys_length, scores_length.
Qed.

Lemma cut_keeps_the_best_witness :
  exists full,
    score_untruncated [Str "fever"] [] six_way = Ok full
    /\ score_differential [Str "fever"] [] six_way = Ok (firstn MAX_TOP full)
    /\ (forall a b, In a (firstn MAX_TOP full) -> In b (skipn MAX_TOP full) ->
          (probability b <= probability a)%R)
    /\ (contributing_diseases [Str "fever"] six_way <= MAX_TOP ->
        score_differential [Str "fever"] [] six_way = Ok full).
Proof.
  apply (cut_keeps_the_best [Str "fever"] [] six_way). reflexivity.
Defined.

Lemma score_loop_member_ext (found1 found2 : list cell)
  (rows : list disease_row) :
  (forall f, member (normalize f) found1 = member (normalize f) found2) ->
  forall scores, score_loop found1 rows scores = score_loop found2 rows scores.
Proof.
  intros H. induction rows as [|row rest IH]; intros scores; simpl; trivial.
  assert (Hrow : score_row found1 row scores = score_row found2 row scores).
  { unfold score_row. destruct (getitem "disease" (disease row)); simpl; trivial.
    destruct (getitem "finding_text" (finding_text row)) as [f|]; simpl; trivial.
    now rewrite (H f). }
  rewrite Hrow. destruct (score_row found2 row scores); simpl; trivial.
Qed.

Lemma member_normal_form (f : cell) (found : list cell) :
  member (normalize f) (filter in_normal_form found)
  = member (normalize f) found.
Proof.
  unfold member. induction found as [|c found IH]; simpl; trivial.
  destruct (in_normal_form c) eqn:Hc; simpl; [now rewrite IH|].
  rewrite IH. destruct (cell_is (normalize f) c) eqn:Hm; trivial.
  exfalso. destruct c as [s|]; simpl in Hm, Hc; [|discriminate].
  apply String.eqb_eq in Hm. subst s.
  rewrite normalize_fixed, String.eqb_refl in Hc. discriminate.
Qed.

(** X17. The scorer looks for the normalised [finding_text] among the
    findings as they are, so a finding counts only if it is a string
    already in normal form (lower case, no white space around it): the
    findings that are not, and missing values, can be removed without
    changing the result. *)
Theorem only_normal_findings_count (found : list cell) (labs : list lab_row)
  (df : list disease_row) :
  score_differential found labs df
  = score_differential (filter in_normal_form found) labs df.
Proof.
  unfold score_differential.
  rewrite (score_loop_member_ext found (filter in_normal_form found) df);
    trivial.
  intros f. symmetry. apply member_normal_form.
Qed.

(** ** The page *)

Lemma cell_eqb_eq (a b : cell) : cell_eqb a b = true <-> a = b.
Proof.
  unfold cell_eqb. destruct (cell_eq_dec a b); split; congruence.
Qed.

Lemma isin_In (c : cell) (values : list cell) :
  isin c values = true <-> In c values.
Proof.
  unfold isin. rewrite existsb_exists. split.
  - intros [x [Hin Hx]]. apply cell_eqb_eq in Hx. now subst.
  - intros H. exists c. split; trivial. now apply cell_eqb_eq.
Qed.

Lemma unique_In (c : cell) (l : list cell) : In c (unique l) <-> In c l.
Proof.
  induction l as [|x l IH]; simpl; [tauto|].
  rewrite filter_In, IH, negb_true_iff. split.
  - intros [H|[H _]]; auto.
  - intros [H|H]; auto. destruct (cell_eq_dec x c) as [E|E]; auto.
    right. split; trivial. destruct (cell_eqb c x) eqn:Ec; trivial.
    apply cell_eqb_eq in Ec. congruence.
Qed.

Lemma unique_NoDup (l : list cell) : NoDup (unique l).
Proof.
  induction l as [|x l IH]; simpl; constructor.
  - rewrite filter_In, negb_true_iff. intros [_ H].
    assert (cell_eqb x x = true) by now apply cell_eqb_eq. congruence.
  - now apply NoDup_filter.
Qed.

Lemma column_citation_id_In (df : list disease_row) (ids : list cell) :
  column_citation_id df = Ok ids ->
  forall c, In c ids <->
            exists row, In row df /\ citation_id row = Some c.
Proof.
  revert ids. induction df as [|row rest IH]; simpl; intros ids H c.
  - injection H as <-. split; [contradiction | intros [_ [[] _]]].
  - destruct (citation_id row) as [x|] eqn:Hx; simpl in H; [|discriminate].
    destruct (column_citation_id rest) as [cs|]; simpl in H; [|discriminate].
    injection H as <-. simpl. rewrite (IH cs eq_refl c). split.
    + intros [->|[r [Hin Hr]]]; [exists row; auto | exists r; auto].
    + intros [r [[->|Hin] Hr]]; [left; congruence | right; now exists r].
Qed.

Lemma column_citation_id_total (df : list disease_row) :
  forallb has_citation df = true ->
  exists ids, column_citation_id df = Ok ids.
Proof.
  induction df as [|row rest IH]; simpl; intros H; [now eexists|].
  apply andb_true_iff in H as [Hrow Hrest]. unfold has_citation in Hrow.
  destruct (citation_id row); [|discriminate]. simpl.
  destruct (IH Hrest) as [ids ->]. simpl. now eexists.
Qed.

(** X18. The evidence sources of a report are the citations that any row
    of the evidence table cites, whether or not its disease is in the
    differential: two reports over the same tables list the same sources,
    whatever the two cases are. *)
Theorem sources_do_not_depend_on_case (text1 text2 : string)
  (labs1 labs2 : list lab_row) (symptoms_df : list symptom_row)
  (disease_df : list disease_row) (tests_df : list Tests.row)
  (citations_df : list Citations.row)
  (results1 results2 : list candidate) (tests1 tests2 : list Tests.row)
  (refs1 refs2 : list Citations.row) :
  analyze_case text1 labs1 symptoms_df disease_df tests_df citations_df
  = Ok (Report results1 tests1 refs1) ->
  analyze_case text2 labs2 symptoms_df disease_df tests_df citations_df
  = Ok (Report results2 tests2 refs2) ->
  refs1 = refs2
  /\ forall c, In c refs1 <->
       In c citations_df
       /\ exists row, In row disease_df
                      /\ citation_id row = Some (Citations.citation_id c).
Proof.
  unfold analyze_case. intros H1 H2.
  destruct (parse_findings text1 symptoms_df) as [f1|]; [|discriminate].
  destruct (parse_findings text2 symptoms_df) as [f2|]; [|discriminate].
  simpl in H1, H2.
  destruct (score_differential f1 labs1 disease_df) as [[|c1 r1]|];
    try discriminate.
  destruct (score_differential f2 labs2 disease_df) as [[|c2 r2]|];
    try discriminate.
  simpl in H1, H2.
  destruct (column_citation_id disease_df) as [ids|] eqn:Hids;
    [|discriminate].
  simpl in H1, H2. injection H1 as _ _ <-. injection H2 as _ _ <-.
  split; trivial. intros c.
  rewrite filter_In, isin_In, unique_In.
  now rewrite (column_citation_id_In disease_df ids Hids).
Qed.

Lemma sources_do_not_depend_on_case_witness :
  [Citations.mk (Str "c1") (Str "Flu guide") (Str "u1") (Str "WHO");
   Citations.mk (Str "c2") (Str "Cold guide") (Str "u2") (Str "CDC")]
  = [Citations.mk (Str "c1") (Str "Flu guide") (Str "u1") (Str "WHO");
     Citations.mk (Str "c2") (Str "Cold guide") (Str "u2") (Str "CDC")]
  /\ forall c,
       In c [Citations.mk (Str "c1") (Str "Flu guide") (Str "u1") (Str "WHO");
             Citations.mk (Str "c2") (Str "Cold guide") (Str "u2") (Str "CDC")]
       <-> In c [Citations.mk (Str "c1") (Str "Flu guide") (Str "u1") (Str "WHO");
                 Citations.mk (Str "c2") (Str "Cold guide") (Str "u2") (Str "CDC")]
           /\ exists row,
                In row [cited "Flu" "fever" "c1"; cited "Cold" "sneeze" "c2"]
                /\ citation_id row = Some (Citations.citation_id c).
Proof.
  apply (sources_do_not_depend_on_case "fever" "sneeze" [] []
           [entry "fever" "fever"; entry "sneeze" "sneeze"]
           [cited "Flu" "fever" "c1"; cited "Cold" "sneeze" "c2"]
           []
           [Citations.mk (Str "c1") (Str "Flu guide") (Str "u1") (Str "WHO");
            Citations.mk (Str "c2") (Str "Cold guide") (Str "u2") (Str "CDC")]
           [mk_candidate "Flu" 100] [mk_candidate "Cold" 100] [] []).
  - unfold analyze_case.
    change (parse_findings "fever" [entry "fever" "fever"; entry "sneeze" "sneeze"])
      with (Ok [Str "fever"]).
    rewrite bind_Ok.
    rewrite (single_disease_result [Str "fever"] []
               [cited "Flu" "fever" "c1"; cited "Cold" "sneeze" "c2"] "Flu").
    + reflexivity.
    + reflexivity.
    + reflexivity.
    + intros row [<-|[<-|[]]] Hc; [reflexivity | discriminate].
  - unfold analyze_case.
    change (parse_findings "sneeze" [entry "fever" "fever"; entry "sneeze" "sneeze"])
      with (Ok [Str "sneeze"]).
    rewrite bind_Ok.
    rewrite (single_disease_result [Str "sneeze"] []
               [cited "Flu" "fever" "c1"; cited "Cold" "sneeze" "c2"] "Cold").
    + reflexivity.
    + reflexivity.
    + reflexivity.
    + intros row [<-|[<-|[]]] Hc; [discriminate | reflexivity].
Defined.

Lemma no_result_iff_no_contribution (found : list cell) (labs : list lab_row)
  (df : list disease_row) :
  forallb usable df = true ->
  exists results,
    score_differential found labs df = Ok results
    /\ (results = [] <-> existsb (contributes found) df = false).
Proof.
  intros H.
  destruct (scoring_master found labs df H)
    as [full [m [s [_ [Hres [Hperm _]]]]]].
  eexists. split; [exact Hres|].
  destruct (existsb (contributes found) df) eqn:Hsome.
  - split; [|discriminate]. intros Hnil. exfalso.
    apply (accumulate_nonempty found df Hsome).
    apply length_zero_iff_nil.
    rewrite <- keys_length, <- (Permutation_length Hperm), length_map.
    destruct full; [reflexivity | discriminate].
  - split; trivial. intros _.
    rewrite (accumulate_empty found df Hsome) in Hperm.
    apply Permutation_sym, Permutation_nil in Hperm.
    apply map_eq_nil in Hperm. now subst.
Qed.

Lemma suggested_tests_In (results : list candidate) (tests_df : list Tests.row)
  (t : Tests.row) :
  In t (filter (fun t => isin (Tests.disease t) (map Str (map name results)))
               tests_df)
  <-> In t tests_df
      /\ exists c, In c results /\ Tests.disease t = Str (name c).
Proof.
  rewrite filter_In, isin_In, in_map_iff. split.
  - intros [Hin [n [Hn Hname]]]. split; trivial.
    apply in_map_iff in Hname as [x [<- Hx]]. now exists x.
  - intros [Hin [x [Hx Ht]]]. split; trivial.
    exists (name x). split; [now rewrite Ht | now apply in_map].
Qed.

(** X19. With tables that carry their labels and whose weights are
    numbers (or that have no weight), [Analyze Case] does not raise.  The
    page says that there are no matches exactly when no
    evidence row has its normalised finding among the extracted findings;
    otherwise it shows the list of the scorer and suggests the tests of the
    test table whose disease is in that list, and no other test. *)
Theorem analyze_case_page (text : string) (labs : list lab_row)
  (symptoms_df : list symptom_row) (disease_df : list disease_row)
  (tests_df : list Tests.row) (citations_df : list Citations.row) :
  forallb has_labels symptoms_df = true ->
  forallb usable disease_df = true ->
  forallb has_citation disease_df = true ->
  exists found pg,
    parse_findings text symptoms_df = Ok found
    /\ analyze_case text labs symptoms_df disease_df tests_df citations_df
       = Ok pg
    /\ (pg = NoMatches <-> existsb (contributes found) disease_df = false)
    /\ forall results tests refs,
         pg = Report results tests refs ->
         score_differential found labs disease_df = Ok results
         /\ forall t, In t tests <->
              In t tests_df
              /\ exists c, In c results /\ Tests.disease t = Str (name c).
Proof.
  intros Hs Hd Hc. unfold analyze_case.
  rewrite (parse_findings_labelled text symptoms_df Hs), bind_Ok.
  set (found := map canonical (filter (matches text) symptoms_df)).
  destruct (no_result_iff_no_contribution found labs disease_df Hd)
    as [results [Hres Hiff]].
  destruct (column_citation_id_total disease_df Hc) as [ids Hids].
  exists found. rewrite Hres, Hids, !bind_Ok.
  destruct results as [|c rest].
  - exists NoMatches. split; [reflexivity|]. split; [reflexivity|]. split.
    + split; trivial. intros _. now apply Hiff.
    + discriminate.
  - eexists. split; [reflexivity|]. split; [reflexivity|]. split.
    + split; [discriminate|]. intros H. apply Hiff in H. discriminate.
    + intros results tests refs Heq. injection Heq as <- <- _.
      split; trivial. intros t.
      apply (suggested_tests_In (c :: rest) tests_df t).
Qed.

Lemma analyze_case_page_witness :
  exists found pg,
    parse_findings "fever" [entry "fever" "fever"] = Ok found
    /\ analyze_case "fever" [] [entry "fever" "fever"]
         [cited "Flu" "fever" "c1"]
         [Tests.mk (Str "Flu") (Str "PCR") (Str "confirms influenza")] []
       = Ok pg
    /\ (pg = NoMatches
        <-> existsb (contributes found) [cited "Flu" "fever" "c1"] = false)
    /\ forall results tests refs,
         pg = Report results tests refs ->
         score_differential found [] [cited "Flu" "fever" "c1"] = Ok results
         /\ forall t, In t tests <->
              In t [Tests.mk (Str "Flu") (Str "PCR") (Str "confirms influenza")]
              /\ exists c, In c results /\ Tests.disease t = Str (name c).
Proof.
  apply (analyze_case_page "fever" [] [entry "fever" "fever"]
           [cited "Flu" "fever" "c1"]
           [Tests.mk (Str "Flu") (Str "PCR") (Str "confirms influenza")] []);
    reflexivity.
Defined.

(** ** The password gate *)

Lemma session_locked (auth : option bool) (inputs : list (string * bool)) :
  get auth false = false ->
  In Passed (session auth inputs) -> In (APP_PASSWORD, true) inputs.
Proof.
  revert auth. induction inputs as [|[pw continue] rest IH];
    intros auth Hauth; simpl; [contradiction|].
  unfold gate. rewrite Hauth. simpl.
  destruct continue.
  - destruct (String.eqb pw APP_PASSWORD) eqn:E.
    + apply String.eqb_eq in E. subst pw. now left.
    + intros [H|H]; [discriminate|]. right. now apply (IH (Some false)).
  - intros [H|H]; [discriminate|]. right. now apply (IH (Some false)).
Qed.

Lemma session_open (inputs : list (string * bool)) :
  session (Some true) inputs = repeat Passed (List.length inputs).
Proof.
  induction inputs as [|[pw continue] rest IH]; simpl; trivial.
  now rewrite IH.
Qed.

(** X20. The page is behind the password.  In a session that starts
    without the [auth] entry, a run gets past the gate only after a run in
    which the button was pressed with exactly [APP_PASSWORD] in the field;
    the runs before that one all stop at the gate, and the runs after it
    all pass, whatever is entered. *)
Theorem page_needs_password (inputs : list (string * bool)) :
  (In Passed (session None inputs) -> In (APP_PASSWORD, true) inputs)
  /\ forall before after,
       inputs = before ++ (APP_PASSWORD, true) :: after ->
       ~ In (APP_PASSWORD, true) before ->
       exists stops,
         session None inputs = stops ++ Rerun :: repeat Passed (List.length after)
         /\ List.length stops = List.length before
         /\ Forall (fun o => exists e, o = Stopped e) stops.
Proof.
  split; [now apply session_locked|].
  intros before after -> Hfresh.
  assert (Hgen : forall auth, get auth false = false ->
            exists stops,
              session auth (before ++ (APP_PASSWORD, true) :: after)
              = stops ++ Rerun :: repeat Passed (List.length after)
              /\ List.length stops = List.length before
              /\ Forall (fun o => exists e, o = Stopped e) stops).
  { induction before as [|[pw continue] rest IH]; intros auth Hauth.
    - exists []. simpl. unfold gate. rewrite Hauth. simpl.
      rewrite session_open. repeat split. constructor.
    - destruct IH with (auth := Some false) as [stops [Hs [Hlen Hall]]];
        [intros H; apply Hfresh; now right | reflexivity |].
      assert (Hne : (pw, continue) <> (APP_PASSWORD, true))
        by (intros E; apply Hfresh; now left).
      simpl. unfold gate. rewrite Hauth. simpl.
      destruct continue.
      + destruct (String.eqb pw APP_PASSWORD) eqn:E.
        * apply String.eqb_eq in E. congruence.
        * exists (Stopped (Some "Incorrect password") :: stops).
          simpl. rewrite Hs, Hlen. repeat split.
          constructor; [now eexists | exact Hall].
      + exists (Stopped None :: stops).
        simpl. rewrite Hs, Hlen. repeat split.
        constructor; [now eexists | exact Hall]. }
  now apply Hgen.
Qed.

Lemma page_needs_password_witness :
  In (APP_PASSWORD, true)
     [("changemenow!", true); ("ChangeMeNow!", true); ("", false)]
  /\ exists stops,
       session None [("changemenow!", true); ("ChangeMeNow!", true); ("", false)]
       = stops ++ Rerun :: repeat Passed 1
       /\ List.length stops = 1
       /\ Forall (fun o => exists e, o = Stopped e) stops.
Proof.
  destruct (page_needs_password
              [("changemenow!", true); ("ChangeMeNow!", true); ("", false)])
    as [Hlocked Hopen].
  split.
  - apply Hlocked. simpl. right. right. now left.
  - apply (Hopen [("changemenow!", true)] [("", false)]); [reflexivity|].
    intros [H|[]]. discriminate.
Defined.

(** * The scorer on float64 numbers *)

(** ** NaN is absorbing *)








(** ** The loop *)







(** ** The sort *)



(** ** The two embeddings agree on real weights *)

















(** ** Weights that are not numbers *)






